(** * Real-AQI: the AQI engine of [app.py]

    A shallow embedding of the two functions of [app.py] that carry the
    computation ([calculate_sub_aqi] and [get_aqi]) and of the button
    handler that calls them (the categorisation ladder, the values it
    gives the gauge and the lookup of the recommendation), followed by
    the properties the specification states about them and by further
    properties of the code.

    Numbers.  Every concentration reaching the engine is a Python [float]
    (the readings come from [st.number_input] called with float bounds),
    that is an IEEE 754 binary64 value; it is embedded as Rocq's primitive
    [float], whose operations are the binary64 operations with rounding to
    nearest, ties to even.  The breakpoint tables mix [int] and [float]
    literals.  An [int] of the tables only ever meets a [float] (in a
    comparison or an arithmetic operation with the concentration, or with
    a quotient that is a [float]), or another small [int] of the same
    tuple in a subtraction whose result is then multiplied or divided by a
    [float]; Python converts such an [int] to the [float] of the same
    value, exactly, so an [int] literal [n] of the tables is embedded as
    the binary64 value [n].  The two [int] results [500] and [0] are
    embedded the same way.

    Errors.  Python raises where IEEE arithmetic would return a special
    value: [x / 0.0] raises [ZeroDivisionError], [l[-1]] and [l[0]] raise
    [IndexError] on an empty list, [round] raises on a NaN or an infinity.
    Fallible code therefore returns a [result].

    Out of scope.  The Streamlit widgets and the rendering of the Plotly
    gauge are not modelled: the handler is embedded as a function of the
    five numbers of the form to the values it hands to the gauge and the
    text it shows.  [get_aqi] takes its five readings as [option float],
    [None] for a reading that is not supplied.

    Proofs.  The comparisons and the four operations of the primitive
    floats are specified by [FloatAxioms] through the functions of
    [SpecFloat]; the order facts and the monotonicity of rounding used
    below are proved from those functions, the values being read in the
    real numbers. *)

From Stdlib Require Import ZArith List Floats String DecimalString Bool Lia Reals Lra.
Import ListNotations.

Set Warnings "-inexact-float".

(** ** The fragment of the Python runtime the engine uses *)

Module Py.

Inductive exn : Type :=
| ZeroDivisionError
| IndexError
| ValueError
| OverflowError.

Inductive result (A : Type) : Type :=
| Ok (a : A)
| Raise (e : exn).

Arguments Ok {A} a.
Arguments Raise {A} e.

Definition bind {A B : Type} (c : result A) (k : A -> result B) : result B :=
  match c with
  | Ok a => k a
  | Raise e => Raise e
  end.

(** [x / y] on floats: Python raises on a zero divisor of either sign. *)
Definition truediv (x y : float) : result float :=
  if PrimFloat.eqb y 0%float then Raise ZeroDivisionError else Ok (x / y)%float.

(** [l[-1]]. *)
Fixpoint index_last {A : Type} (l : list A) : result A :=
  match l with
  | [] => Raise IndexError
  | [a] => Ok a
  | _ :: t => index_last t
  end.

(** [l[0]]. *)
Definition index_0 {A : Type} (l : list A) : result A :=
  match l with
  | [] => Raise IndexError
  | a :: _ => Ok a
  end.

(** [max(l)]: the running maximum is replaced only by an item that
    compares strictly greater ([max_step]), so the first of several equal
    maxima is the one returned. *)
Definition max_step (m item : float) : float :=
  if PrimFloat.ltb m item then item else m.

Definition max (l : list float) : result float :=
  match l with
  | [] => Raise ValueError
  | x :: t => Ok (fold_left max_step t x)
  end.

(** The integer nearest to [m * 2^e], ties to the even one ([0 <= m]). *)
Definition round_half_even (m e : Z) : Z :=
  if (0 <=? e)%Z then (m * 2 ^ e)%Z
  else
    let d := (2 ^ (- e))%Z in
    let q := (m / d)%Z in
    match (2 * (m mod d) ?= d)%Z with
    | Lt => q
    | Eq => if Z.even q then q else (q + 1)%Z
    | Gt => (q + 1)%Z
    end.

(** [round(x)] with one argument: an [int], by rounding half to even;
    [ValueError] on a NaN, [OverflowError] on an infinity. *)
Definition round (x : float) : result Z :=
  match Prim2SF x with
  | S754_nan => Raise ValueError
  | S754_infinity _ => Raise OverflowError
  | S754_zero _ => Ok 0%Z
  | S754_finite s m e =>
      let r := round_half_even (Zpos m) e in
      Ok (if s then (- r)%Z else r)
  end.

End Py.

Import Py.

Notation "x <- c1 ;; c2" := (Py.bind c1 (fun x => c2))
  (at level 61, c1 at next level, right associativity).

Open Scope string_scope.
Open Scope list_scope.
Open Scope float_scope.

(** ** Sub-index interpolation *)

(** A band [(low_c, high_c, low_i, high_i)] of a breakpoint table. *)
Definition band : Type := float * float * float * float.

Definition low_c (b : band) : float := let '(lc, _, _, _) := b in lc.
Definition high_c (b : band) : float := let '(_, hc, _, _) := b in hc.
Definition low_i (b : band) : float := let '(_, _, li, _) := b in li.
Definition high_i (b : band) : float := let '(_, _, _, hi) := b in hi.

(** The test [low_c <= C <= high_c] of the loop. *)
Definition in_band (C : float) (b : band) : bool :=
  (low_c b <=? C) && (C <=? high_c b).

(** The [for] loop of [calculate_sub_aqi]: it returns from inside the loop
    at the first band that holds [C]; [orelse] is the statement after the
    loop. *)
Fixpoint for_bands (C : float) (bands : list band) (orelse : result float)
  : result float :=
  match bands with
  | [] => orelse
  | (low_c, high_c, low_i, high_i) :: rest =>
      if (low_c <=? C) && (C <=? high_c)
      then q <- truediv ((high_i - low_i) * (C - low_c)) (high_c - low_c) ;;
           Ok (low_i + q)
      else for_bands C rest orelse
  end.

Definition calculate_sub_aqi (C : float) (breakpoints : list band) : result float :=
  for_bands C breakpoints
    (last <- index_last breakpoints ;;
     Ok (if high_c last <? C then 500 else 0)).

(** ** The breakpoint tables of [get_aqi] *)

Definition bp_pm25 : list band :=
  [(0, 12, 0, 50); (12.1, 35.4, 51, 100); (35.5, 55.4, 101, 150);
   (55.5, 150.4, 151, 200); (150.5, 250.4, 201, 300); (250.5, 500.4, 301, 500)].

Definition bp_pm10 : list band :=
  [(0, 54, 0, 50); (55, 154, 51, 100); (155, 254, 101, 150);
   (255, 354, 151, 200); (355, 424, 201, 300); (425, 604, 301, 500)].

Definition bp_co : list band :=
  [(0, 4.4, 0, 50); (4.5, 9.4, 51, 100); (9.5, 12.4, 101, 150);
   (12.5, 15.4, 151, 200); (15.5, 30.4, 201, 300); (30.5, 50.4, 301, 500)].

Definition bp_o3 : list band :=
  [(0, 54, 0, 50); (55, 70, 51, 100); (71, 85, 101, 150);
   (86, 105, 151, 200); (106, 200, 201, 300); (201, 604, 301, 500)].

Definition bp_no2 : list band :=
  [(0, 53, 0, 50); (54, 100, 51, 100); (101, 360, 101, 150);
   (361, 649, 151, 200); (650, 1249, 201, 300); (1250, 2049, 301, 500)].

(** The five tables, in the order [get_aqi] uses them. *)
Definition tables : list (list band) := [bp_pm25; bp_pm10; bp_co; bp_o3; bp_no2].

(** ** Aggregation *)

(** One [if x is not None: ... aqi_list.append((name, ...))] block. *)
Definition append_reading (name : string) (reading : option float)
    (bp : list band) (aqi_list : list (string * float))
  : result (list (string * float)) :=
  match reading with
  | Some c => v <- calculate_sub_aqi c bp ;; Ok (aqi_list ++ [(name, v)])
  | None => Ok aqi_list
  end.

(** The list [aqi_list] as it stands when the five blocks have run. *)
Definition build_aqi_list (pm25 pm10 co o3 no2 : option float)
  : result (list (string * float)) :=
  aqi_list <- append_reading "PM2.5" pm25 bp_pm25 [] ;;
  aqi_list <- append_reading "PM10" pm10 bp_pm10 aqi_list ;;
  aqi_list <- append_reading "CO" co bp_co aqi_list ;;
  aqi_list <- append_reading "O₃" o3 bp_o3 aqi_list ;;
  append_reading "NO₂" no2 bp_no2 aqi_list.

(** The statements after the five blocks. *)
Definition aggregate (aqi_list : list (string * float)) : result (Z * string) :=
  match aqi_list with
  | [] => Ok (0%Z, "No data")
  | _ :: _ =>
      overall_aqi <- Py.max (map snd aqi_list) ;;
      main_pollutant <-
        index_0 (map fst (filter (fun pv => snd pv =? overall_aqi) aqi_list)) ;;
      r <- Py.round overall_aqi ;;
      Ok (r, main_pollutant)
  end.

Definition get_aqi (pm25 pm10 co o3 no2 : option float) : result (Z * string) :=
  aqi_list <- build_aqi_list pm25 pm10 co o3 no2 ;;
  aggregate aqi_list.

(** ** Categorisation (the ladder of the button handler) *)

Definition category (aqi : Z) : string * string :=
  if (aqi <=? 50)%Z then ("Good", "#00e400")
  else if (aqi <=? 100)%Z then ("Moderate", "#ffff00")
  else if (aqi <=? 150)%Z then ("Unhealthy for Sensitive Groups", "#ff7e00")
  else if (aqi <=? 200)%Z then ("Unhealthy", "#ff0000")
  else if (aqi <=? 300)%Z then ("Very Unhealthy", "#8f3f97")
  else ("Hazardous", "#7e0023").

(** ** The button handler

    The body of [if st.button("Calculate AQI", ...)]: it calls [get_aqi]
    with the five readings of the form (a number input always holds a
    float, so none is [None]), walks the ladder, draws the gauge and then
    looks the recommendation up.  The gauge is kept as the values the
    handler computes for it; the constants of pure styling (font sizes,
    height, margins, tick colour) are left out. *)

Module Ui.

(** The dict [recommendations], as the list of its items in source order. *)
Definition recommendations : list (string * string) :=
  [("Good", "Air quality is satisfactory. Enjoy outdoor activities!");
   ("Moderate", "Air quality is acceptable. Sensitive people should consider reducing prolonged outdoor exertion.");
   ("Unhealthy for Sensitive Groups", "Sensitive groups (children, elderly, asthma patients) should limit outdoor activities.");
   ("Unhealthy", "Everyone may begin to experience health effects. Limit outdoor activities and wear N95 mask.");
   ("Very Unhealthy", "Health alert! Avoid outdoor activities. Stay indoors with windows closed. Use air purifier.");
   ("Hazardous", "Emergency conditions. Everyone must stay indoors. Wear N95/KN95 mask if going outside is unavoidable.")].

(** [d[k]]: [None] stands for the [KeyError]. *)
Fixpoint dict_get (d : list (string * string)) (k : string) : option string :=
  match d with
  | [] => None
  | (k', v) :: rest => if String.eqb k' k then Some v else dict_get rest k
  end.

(** The ['steps'] of the gauge and the range of its axis. *)
Definition steps : list (Z * Z * string) :=
  [(0, 50, "#00e400"); (51, 100, "#ffff00"); (101, 150, "#ff7e00");
   (151, 200, "#ff0000"); (201, 300, "#8f3f97"); (301, 500, "#7e0023")]%Z.

Definition axis_range : Z * Z := (0, 500)%Z.

(** [str(n)] of an [int], for the f-string of the title. *)
Definition str (n : Z) : string := NilZero.string_of_int (Z.to_int n).

Record gauge : Type := {
  value : Z;
  number_color : string;
  bar_color : string;
  threshold_value : Z;
  title : string
}.

(** What a click ends in: the gauge and the recommendation are shown; or
    [get_aqi] raised; or the gauge was shown and the lookup of the
    recommendation raised [KeyError]. *)
Inductive outcome : Type :=
| Shown (g : gauge) (recommendation : string)
| EngineRaised (e : exn)
| KeyError (g : gauge) (key : string).

Definition on_calculate (pm25 pm10 co_ppm o3_ppb no2_ppb : float) : outcome :=
  match get_aqi (Some pm25) (Some pm10) (Some co_ppm) (Some o3_ppb) (Some no2_ppb) with
  | Raise e => EngineRaised e
  | Ok (aqi, pollutant) =>
      let '(category, color) := category aqi in
      let fig :=
        {| value := aqi;
           number_color := color;
           bar_color := color;
           threshold_value := aqi;
           title := "<b>AQI: " ++ str aqi ++ "</b><br>" ++ category
                    ++ "<br>Main Pollutant: " ++ pollutant |} in
      match dict_get recommendations category with
      | Some text => Shown fig text
      | None => KeyError fig category
      end
  end.

End Ui.

(** ** Definitions used to state and prove the properties *)

(** The bands ascend: each band has [low_c <= high_c] and ends strictly
    below the start of the next one (the invariant of section 3 of the
    specification, as far as the comparisons of the code can see it). *)
Fixpoint ascending (bands : list band) : bool :=
  match bands with
  | [] => true
  | b :: rest =>
      (low_c b <=? high_c b)
      && match rest with
         | [] => true
         | b' :: _ => high_c b <? low_c b'
         end
      && ascending rest
  end.

(** The concentration boundaries as the table of section 4.2 of the
    specification prints them, in tenths of the unit. *)
Definition spec_boundaries : list (list (Z * Z)) :=
  [ [(0, 120); (121, 354); (355, 554); (555, 1504); (1505, 2504); (2505, 5004)];
    [(0, 540); (550, 1540); (1550, 2540); (2550, 3540); (3550, 4240); (4250, 6040)];
    [(0, 44); (45, 94); (95, 124); (125, 154); (155, 304); (305, 504)];
    [(0, 540); (550, 700); (710, 850); (860, 1050); (1060, 2000); (2010, 6040)];
    [(0, 530); (540, 1000); (1010, 3600); (3610, 6490); (6500, 12490); (12500, 20490)] ]%Z.

(** The index ranges the specification gives for the six bands. *)
Definition spec_index_ranges : list (Z * Z) :=
  [(0, 50); (51, 100); (101, 150); (151, 200); (201, 300); (301, 500)]%Z.

(** The binary64 value of a small integer, and the binary64 value nearest
    to [t / 10]: both operands of the division are exact, and the division
    rounds its exact quotient to nearest. *)
Definition of_int (n : Z) : float := of_uint63 (Uint63.of_Z n).
Definition of_tenths (t : Z) : float := of_int t / of_int 10.

(** A lexicographic key that orders the values [SFcompare] can order. *)
Definition SFkey (a : spec_float) : option (Z * Z * Z) :=
  match a with
  | S754_nan => None
  | S754_infinity true => Some (-2, 0, 0)%Z
  | S754_finite true m e => Some (-1, - e, Zneg m)%Z
  | S754_zero _ => Some (0, 0, 0)%Z
  | S754_finite false m e => Some (1, e, Zpos m)%Z
  | S754_infinity false => Some (2, 0, 0)%Z
  end.

Definition lex3 (k1 k2 : Z * Z * Z) : comparison :=
  let '(a1, b1, c1) := k1 in
  let '(a2, b2, c2) := k2 in
  match (a1 ?= a2)%Z with
  | Eq => match (b1 ?= b2)%Z with
          | Eq => (c1 ?= c2)%Z
          | c => c
          end
  | c => c
  end.

(** *** Binary64 rounding, as [SpecFloat] defines it

    [FloatAxioms] specifies the primitive operations by the functions of
    [SpecFloat] on [spec_float]; the definitions below give those
    functions a meaning in the real numbers, for the values that are not
    negative. *)

(** [2^e] as a real number. *)
Definition bpow (e : Z) : R := powerRZ 2 e.

Arguments bpow : simpl never.

(** The place of the real [u] relative to the integer [m], as a
    [location] records it: on [m], in the lower half of [m, m+1], in its
    middle, in its upper half. *)
Definition located (u : R) (m : Z) (l : location) : Prop :=
  match l with
  | loc_Exact => u = IZR m
  | loc_Inexact Lt => (IZR m < u < IZR m + / 2)%R
  | loc_Inexact Eq => u = (IZR m + / 2)%R
  | loc_Inexact Gt => (IZR m + / 2 < u < IZR m + 1)%R
  end.

(** The same for [x] on the grid of step [2^e]. *)
Definition loc_at (x : R) (m e : Z) (l : location) : Prop :=
  located (x * bpow (- e)) m l.

(** [fexp prec emax] for binary64: the exponent of the grid on which a
    value of magnitude [2^e] is rounded. *)
Definition fexp64 (e : Z) : Z := Z.max (e - 53) (-1074).

(** The two halves of [binary_round_aux]: the shift to the grid with the
    rounding of the mantissa, and the making of the result. *)
Definition rnd_stage (m e : Z) (l : location) : Z * Z :=
  let '(mrs, e') := shr_fexp prec emax m e l in
  (round_nearest_even (shr_m mrs) (loc_of_shr_record mrs), e').

Definition pack (s : bool) (M E : Z) : spec_float :=
  let '(mrs, e) := shr_fexp prec emax M E loc_Exact in
  match shr_m mrs with
  | Z0 => S754_zero s
  | Zpos m => if (e <=? emax - prec)%Z then S754_finite s m e else S754_infinity s
  | Zneg _ => S754_nan
  end.

(** The mantissa [m] at exponent [e] is at least as fine as the grid it
    is rounded on. *)
Definition fine (m e : Z) : Prop := (e <= fexp64 (Zdigits2 m + e))%Z.

(** What [binary_round_aux] expects of its arguments when it rounds the
    real [x]. *)
Definition input_ok (x : R) (m e : Z) (l : location) : Prop :=
  (0 <= m)%Z /\ loc_at x m e l /\ fine m e.

(** A rounded mantissa with its exponent, before it is made a result. *)
Definition canon (M E : Z) : Prop :=
  (0 <= M <= 2 ^ 53)%Z /\ (-1074 <= E)%Z /\ (-1074 < E -> 2 ^ 52 <= M)%Z.

(** A mantissa with its exponent, as a finite result holds them. *)
Definition canon' (M E : Z) : Prop :=
  (0 < M < 2 ^ 53)%Z /\ (-1074 <= E)%Z /\ (-1074 < E -> 2 ^ 52 <= M)%Z.

Definition norm (M E : Z) : Z * Z :=
  if (M =? 2 ^ 53)%Z then (2 ^ 52, E + 1)%Z else (M, E).

(** Values that are not negative: a zero of either sign, a positive finite
    value, the positive infinity. *)
Definition nonneg (a : spec_float) : Prop :=
  match a with
  | S754_zero _ | S754_finite false _ _ | S754_infinity false => True
  | _ => False
  end.

(** Finite and not negative: a zero or a positive finite value. *)
Definition fin_nonneg (a : spec_float) : Prop :=
  match a with
  | S754_zero _ | S754_finite false _ _ => True
  | _ => False
  end.

(** The value of a non-negative [spec_float]; [None] is the infinity. *)
Definition val (a : spec_float) : option R :=
  match a with
  | S754_infinity _ => None
  | S754_finite _ m e => Some (IZR (Zpos m) * bpow e)%R
  | _ => Some 0%R
  end.

(** The value of a finite one. *)
Definition fval (a : spec_float) : R :=
  match a with
  | S754_finite _ m e => (IZR (Zpos m) * bpow e)%R
  | _ => 0%R
  end.

Definition le_ext (v w : option R) : Prop :=
  match v, w with
  | _, None => True
  | None, Some _ => False
  | Some a, Some b => (a <= b)%R
  end.

(** [a] is what rounding the non-negative value [v] gives. *)
Definition RND (v : option R) (a : spec_float) : Prop :=
  match v with
  | None => a = S754_infinity false
  | Some x =>
      (x = 0%R /\ exists s, a = S754_zero s)
      \/ (exists m e l, input_ok x m e l /\ a = binary_round_aux prec emax false m e l)
  end.

Definition valid (a : spec_float) : Prop := SpecFloat.valid_binary prec emax a = true.

(** *** The interpolation on one band *)

(** The value [calculate_sub_aqi] computes on the band [b] where the
    division does not raise. *)
Definition interpolate (C : float) (b : band) : float :=
  low_i b + (high_i b - low_i b) * (C - low_c b) / (high_c b - low_c b).

(** Zero or positive and finite; positive and finite. *)
Definition fin_nonnegb (x : float) : bool :=
  match Prim2SF x with
  | S754_zero _ | S754_finite false _ _ => true
  | _ => false
  end.

Definition fin_posb (x : float) : bool :=
  match Prim2SF x with
  | S754_finite false _ _ => true
  | _ => false
  end.

(** A band whose bounds are not negative, whose widths in concentration
    and in index are positive, on whose two ends the interpolation gives
    exactly [low_i] and [high_i], and whose indices lie in [0, 500]. *)
Definition regular (b : band) : bool :=
  fin_nonnegb (low_c b) && fin_posb (high_i b - low_i b)
  && fin_posb (high_c b - low_c b) && fin_nonnegb (low_i b).

Definition good (b : band) : bool :=
  regular b
  && (interpolate (low_c b) b =? low_i b)
  && (interpolate (high_c b) b =? high_i b)
  && (0 <=? low_i b) && (high_i b <=? 500)
  && (low_c b <=? high_c b).

(** *** The vocabulary of the claims on [get_aqi] *)

(** The five readings in the order in which [get_aqi] evaluates them, each
    with the name and the table it is evaluated with; [supplied] keeps the
    readings that are not [None]. *)
Definition inputs (pm25 pm10 co o3 no2 : option float)
  : list (string * option float * list band) :=
  [("PM2.5", pm25, bp_pm25); ("PM10", pm10, bp_pm10); ("CO", co, bp_co);
   ("O₃", o3, bp_o3); ("NO₂", no2, bp_no2)].

Definition supplied (l : list (string * option float * list band))
  : list (string * float * list band) :=
  flat_map (fun i => match snd (fst i) with
                     | Some c => [(fst (fst i), c, snd i)]
                     | None => []
                     end) l.

(** [aqi_list] holds, in the same order, the name of each supplied reading
    with the value [calculate_sub_aqi] returns for it, unrounded. *)
Definition sub_indices_of (ins : list (string * float * list band))
    (aqi_list : list (string * float)) : Prop :=
  Forall2 (fun i o => fst o = fst (fst i)
                      /\ calculate_sub_aqi (snd (fst i)) (snd i) = Ok (snd o))
    ins aqi_list.

(** [overall] is one of the values and none of them is greater. *)
Definition is_maximum (overall : float) (values : list float) : Prop :=
  In overall values /\ Forall (fun w => (w <=? overall) = true) values.

(** [p] is the name of the first pair of [aqi_list] whose value equals
    [overall]. *)
Definition first_reaching (overall : float) (aqi_list : list (string * float))
    (p : string) : Prop :=
  exists pre w post,
    aqi_list = pre ++ (p, w) :: post
    /\ (w =? overall) = true
    /\ Forall (fun pv => (snd pv =? overall) = false) pre.

(** The values of a list of pairs lie in [0, 500]. *)
Definition in_range (aqi_list : list (string * float)) : Prop :=
  Forall (fun o => (0 <=? snd o) = true /\ (snd o <=? 500) = true) aqi_list.

(** *** The vocabulary of the further properties *)

(** The binary64 value [x] is the integer [a], which is not negative. *)
Definition int_valued (x : float) (a : Z) : bool :=
  match Prim2SF x with
  | S754_zero _ => (a =? 0)%Z
  | S754_finite false m e => (e <=? 0)%Z && (Zpos m =? a * 2 ^ (- e))%Z
  | _ => false
  end.

(** The bands of [t] have, in order, the index ranges [ranges]. *)
Definition index_ranges_are (t : list band) (ranges : list (Z * Z)) : bool :=
  (List.length t =? List.length ranges)%nat
  && forallb (fun br => int_valued (low_i (fst br)) (fst (snd br))
                        && int_valued (high_i (fst br)) (snd (snd br)))
       (combine t ranges).

(** The names [get_aqi] gives the pollutants, and the categories of the
    ladder, in order. *)
Definition pollutants : list string := ["PM2.5"; "PM10"; "CO"; "O₃"; "NO₂"].

Definition categories : list string :=
  ["Good"; "Moderate"; "Unhealthy for Sensitive Groups"; "Unhealthy";
   "Very Unhealthy"; "Hazardous"].

(** The reading [r'] is [r], or is supplied where [r] was not. *)
Definition extends (r r' : option float) : Prop := r = None \/ r' = r.

(** The names of the supplied readings. *)
Definition supplied_names (ins : list (string * float * list band)) : list string :=
  map (fun i => fst (fst i)) ins.

(** A band with its two index bounds in the place of its two concentration
    bounds, so that [ascending] reads the order of the indices. *)
Definition by_index (b : band) : band := (low_i b, high_i b, low_c b, high_c b).

(** The concentration [C] is held by a band of [t], or lies beyond the last
    band: [calculate_sub_aqi] does not reach its final [0] for it. *)
Definition covered (t : list band) (C : float) : Prop :=
  (exists b, In b t /\ in_band C b = true)
  \/ (exists last, index_last t = Ok last /\ (high_c last <? C) = true).

(** The reading [r'] of the table [t] is the reading [r] raised: both are
    missing, or both are supplied, [r'] is not below [r] and is covered. *)
Definition raised (t : list band) (r r' : option float) : Prop :=
  match r, r' with
  | None, None => True
  | Some c, Some c' => (c <=? c') = true /\ covered t c'
  | _, _ => False
  end.

(** * Properties *)

(** ** The order of binary64 values *)

Section SpecOrder.

Lemma SFcompare_key a b :
  SFcompare a b =
  match SFkey a, SFkey b with
  | Some ka, Some kb => Some (lex3 ka kb)
  | _, _ => None
  end.
Proof.
  destruct a as [[]|[]| |[] ma ea], b as [[]|[]| |[] mb eb]; simpl; try reflexivity.
  rewrite Z.compare_opp, (Z.compare_antisym ea eb).
  destruct (ea ?= eb)%Z; reflexivity.
Qed.

Ltac lex_cases :=
  unfold lex3;
  repeat match goal with
         | k : (Z * Z * Z)%type |- _ => destruct k as [[? ?] ?]
         end;
  repeat match goal with
         | |- context [(?a ?= ?b)%Z] => destruct (Z.compare_spec a b)
         | H : context [(?a ?= ?b)%Z] |- _ => destruct (Z.compare_spec a b)
         end;
  try discriminate; try congruence; try lia.

Lemma lex3_lt_le_trans k1 k2 k3 :
  lex3 k1 k2 = Lt -> lex3 k2 k3 <> Gt -> lex3 k1 k3 = Lt.
Proof. lex_cases. Qed.

Lemma lex3_le_lt_trans k1 k2 k3 :
  lex3 k1 k2 <> Gt -> lex3 k2 k3 = Lt -> lex3 k1 k3 = Lt.
Proof. lex_cases. Qed.

Lemma lex3_le_trans k1 k2 k3 :
  lex3 k1 k2 <> Gt -> lex3 k2 k3 <> Gt -> lex3 k1 k3 <> Gt.
Proof. lex_cases. Qed.

Lemma lex3_antisym k1 k2 : lex3 k2 k1 = CompOpp (lex3 k1 k2).
Proof. lex_cases; simpl; lex_cases. Qed.

Lemma lex3_refl k : lex3 k k = Eq.
Proof. lex_cases. Qed.

Lemma SFltb_key a b :
  SFltb a b = true <->
  exists ka kb, SFkey a = Some ka /\ SFkey b = Some kb /\ lex3 ka kb = Lt.
Proof.
  unfold SFltb. rewrite SFcompare_key.
  destruct (SFkey a) as [ka|], (SFkey b) as [kb|]; split;
    try discriminate; try (intros (? & ? & ? & ? & ?); discriminate).
  - destruct (lex3 ka kb) eqn:E; try discriminate. eauto.
  - intros (ka' & kb' & Ha & Hb & Hl). injection Ha as ->. injection Hb as ->.
    now rewrite Hl.
Qed.

Lemma SFleb_key a b :
  SFleb a b = true <->
  exists ka kb, SFkey a = Some ka /\ SFkey b = Some kb /\ lex3 ka kb <> Gt.
Proof.
  unfold SFleb. rewrite SFcompare_key.
  destruct (SFkey a) as [ka|], (SFkey b) as [kb|]; split;
    try discriminate; try (intros (? & ? & ? & ? & ?); discriminate).
  - destruct (lex3 ka kb) eqn:E; try discriminate; intros _;
      exists ka, kb; rewrite E; repeat split; discriminate.
  - intros (ka' & kb' & Ha & Hb & Hl). injection Ha as ->. injection Hb as ->.
    destruct (lex3 ka' kb'); congruence.
Qed.

End SpecOrder.

Section FloatOrder.

Implicit Types x y z : float.

Lemma ltb_leb_trans x y z : (x <? y) = true -> (y <=? z) = true -> (x <? z) = true.
Proof.
  rewrite !FloatAxioms.ltb_spec, FloatAxioms.leb_spec, !SFltb_key, SFleb_key.
  intros (k1 & k2 & H1 & H2 & H12) (k2' & k3 & H2' & H3 & H23).
  rewrite H2 in H2'. injection H2' as <-.
  exists k1, k3. eauto using lex3_lt_le_trans.
Qed.

Lemma leb_ltb_trans x y z : (x <=? y) = true -> (y <? z) = true -> (x <? z) = true.
Proof.
  rewrite !FloatAxioms.ltb_spec, FloatAxioms.leb_spec, !SFltb_key, SFleb_key.
  intros (k1 & k2 & H1 & H2 & H12) (k2' & k3 & H2' & H3 & H23).
  rewrite H2 in H2'. injection H2' as <-.
  exists k1, k3. eauto using lex3_le_lt_trans.
Qed.

Lemma leb_trans x y z : (x <=? y) = true -> (y <=? z) = true -> (x <=? z) = true.
Proof.
  rewrite !FloatAxioms.leb_spec, !SFleb_key.
  intros (k1 & k2 & H1 & H2 & H12) (k2' & k3 & H2' & H3 & H23).
  rewrite H2 in H2'. injection H2' as <-.
  exists k1, k3. eauto using lex3_le_trans.
Qed.

Lemma ltb_leb x y : (x <? y) = true -> (x <=? y) = true.
Proof.
  rewrite FloatAxioms.ltb_spec, FloatAxioms.leb_spec, SFltb_key, SFleb_key.
  intros (k1 & k2 & H1 & H2 & H12). exists k1, k2. rewrite H12.
  repeat split; auto; discriminate.
Qed.

Lemma ltb_not_leb x y : (x <? y) = true -> (y <=? x) = false.
Proof.
  rewrite FloatAxioms.ltb_spec, SFltb_key. intros (k1 & k2 & H1 & H2 & H12).
  destruct (y <=? x) eqn:E; [|reflexivity].
  rewrite FloatAxioms.leb_spec, SFleb_key in E. destruct E as (k2' & k1' & H2' & H1' & H21).
  rewrite H2 in H2'. injection H2' as <-. rewrite H1 in H1'. injection H1' as <-.
  rewrite lex3_antisym, H12 in H21. now elim H21.
Qed.

Lemma leb_not_ltb x y : (x <=? y) = true -> (y <? x) = false.
Proof.
  intros H. destruct (y <? x) eqn:E; [|reflexivity].
  apply ltb_not_leb in E. congruence.
Qed.

(** A value that compares with anything is not a NaN. *)
Lemma leb_eqb_l x y : (x <=? y) = true -> (x =? x) = true.
Proof.
  rewrite FloatAxioms.leb_spec, FloatAxioms.eqb_spec, SFleb_key. intros (k1 & k2 & H1 & _).
  unfold SFeqb. rewrite SFcompare_key, H1, lex3_refl. reflexivity.
Qed.

Lemma leb_eqb_r x y : (x <=? y) = true -> (y =? y) = true.
Proof.
  rewrite FloatAxioms.leb_spec, FloatAxioms.eqb_spec, SFleb_key. intros (k1 & k2 & _ & H2 & _).
  unfold SFeqb. rewrite SFcompare_key, H2, lex3_refl. reflexivity.
Qed.

Lemma leb_refl x : (x =? x) = true -> (x <=? x) = true.
Proof.
  rewrite FloatAxioms.leb_spec, FloatAxioms.eqb_spec. unfold SFeqb, SFleb.
  destruct (SFcompare _ _) as [[]|]; congruence.
Qed.

(** Any two values that are not NaN compare one way or the other. *)
Lemma leb_total x y :
  (x =? x) = true -> (y =? y) = true -> (x <=? y) = false -> (y <? x) = true.
Proof.
  rewrite !FloatAxioms.eqb_spec, FloatAxioms.leb_spec, FloatAxioms.ltb_spec. unfold SFeqb, SFleb, SFltb.
  rewrite !SFcompare_key.
  destruct (SFkey (Prim2SF x)) as [k1|], (SFkey (Prim2SF y)) as [k2|];
    try discriminate.
  intros _ _. rewrite (lex3_antisym k1 k2).
  destruct (lex3 k1 k2); simpl; congruence.
Qed.

Lemma eqb_leb x y : (x =? y) = (x <=? y) && (y <=? x).
Proof.
  rewrite FloatAxioms.eqb_spec, !FloatAxioms.leb_spec. unfold SFeqb, SFleb. rewrite !SFcompare_key.
  destruct (SFkey (Prim2SF x)) as [k1|], (SFkey (Prim2SF y)) as [k2|];
    try reflexivity.
  rewrite (lex3_antisym k1 k2). destruct (lex3 k1 k2); reflexivity.
Qed.

End FloatOrder.

(** ** Rounding to binary64 is monotone *)

Section Bpow.
Open Scope R_scope.

Lemma bpow_pos e : 0 < bpow e.
Proof. apply powerRZ_lt. lra. Qed.

Lemma bpow_add a b : bpow (a + b) = bpow a * bpow b.
Proof. apply powerRZ_add. lra. Qed.

Lemma bpow_0 : bpow 0 = 1.
Proof. reflexivity. Qed.

Lemma bpow_1 : bpow 1 = 2.
Proof. unfold bpow. simpl. lra. Qed.

Lemma bpow_m1 : bpow (-1) = / 2.
Proof. unfold bpow. simpl. rewrite Rmult_1_r. reflexivity. Qed.

Lemma bpow_opp e : bpow (- e) = / bpow e.
Proof.
  apply Rmult_eq_reg_l with (bpow e); [|pose proof (bpow_pos e); lra].
  rewrite <- bpow_add, Z.add_opp_diag_r, bpow_0.
  rewrite Rinv_r; [reflexivity|pose proof (bpow_pos e); lra].
Qed.

Lemma bpow_succ e : bpow (e + 1) = 2 * bpow e.
Proof. rewrite bpow_add, bpow_1. lra. Qed.

Lemma bpow_le a b : (a <= b)%Z -> bpow a <= bpow b.
Proof.
  intros H. replace b with (a + (b - a))%Z by lia.
  rewrite bpow_add.
  assert (1 <= bpow (b - a)).
  { assert (0 <= b - a)%Z by lia. revert H0. generalize (b - a)%Z.
    intros z Hz. pattern z. apply natlike_ind; [rewrite bpow_0; lra| |exact Hz].
    intros k Hk IH. unfold Z.succ. rewrite bpow_succ. lra. }
  pose proof (bpow_pos a). nra.
Qed.

Lemma bpow_lt a b : (a < b)%Z -> bpow a < bpow b.
Proof.
  intros H. assert (bpow (a + 1) <= bpow b) by (apply bpow_le; lia).
  rewrite bpow_succ in H0. pose proof (bpow_pos a). lra.
Qed.

Lemma bpow_IZR n : (0 <= n)%Z -> bpow n = IZR (2 ^ n).
Proof.
  intros H. pattern n. apply natlike_ind; [reflexivity| |exact H].
  intros k Hk IH. unfold Z.succ. rewrite bpow_succ, IH, Z.pow_add_r by lia.
  rewrite mult_IZR. change (2 ^ 1)%Z with 2%Z. lra.
Qed.

Lemma bpow_lt_inv a b : bpow a < bpow b -> (a < b)%Z.
Proof.
  intros H. destruct (Z_lt_le_dec a b) as [|Hle]; [assumption|].
  apply bpow_le in Hle. lra.
Qed.

End Bpow.

Section Digits.

Lemma digits2_pos_size p : digits2_pos p = Pos.size p.
Proof. induction p; simpl; congruence. Qed.

Lemma digits2_bounds p :
  (2 ^ (Zpos (digits2_pos p) - 1) <= Zpos p < 2 ^ Zpos (digits2_pos p))%Z.
Proof.
  induction p as [p IH|p IH|]; simpl digits2_pos.
  - rewrite Pos2Z.inj_succ.
    replace (Z.succ (Zpos (digits2_pos p)) - 1)%Z with (Zpos (digits2_pos p) - 1 + 1)%Z by lia.
    unfold Z.succ. rewrite !Z.pow_add_r by lia. change (2 ^ 1)%Z with 2%Z. lia.
  - rewrite Pos2Z.inj_succ.
    replace (Z.succ (Zpos (digits2_pos p)) - 1)%Z with (Zpos (digits2_pos p) - 1 + 1)%Z by lia.
    unfold Z.succ. rewrite !Z.pow_add_r by lia. change (2 ^ 1)%Z with 2%Z. lia.
  - simpl. lia.
Qed.

Lemma Zdigits2_nonneg m : (0 <= Zdigits2 m)%Z.
Proof. destruct m; simpl; lia. Qed.

Lemma Zdigits2_bounds m :
  (0 < m)%Z -> (2 ^ (Zdigits2 m - 1) <= m < 2 ^ Zdigits2 m)%Z.
Proof. destruct m; try lia. intros _. apply digits2_bounds. Qed.

(** The number of digits is determined by the bounds. *)
Lemma Zdigits2_unique m d :
  (2 ^ (d - 1) <= m < 2 ^ d)%Z -> (0 < m)%Z -> Zdigits2 m = d.
Proof.
  intros H Hm. pose proof (Zdigits2_bounds m Hm) as H'.
  assert (0 <= d)%Z.
  { destruct (Z_lt_le_dec d 0); [|assumption].
    rewrite (Z.pow_neg_r 2 d) in H by assumption. lia. }
  pose proof (Zdigits2_nonneg m).
  destruct (Z.lt_trichotomy (Zdigits2 m) d) as [Hlt|[Heq|Hgt]]; [|assumption|].
  - assert (2 ^ Zdigits2 m <= 2 ^ (d - 1))%Z by (apply Z.pow_le_mono_r; lia). lia.
  - assert (2 ^ d <= 2 ^ (Zdigits2 m - 1))%Z by (apply Z.pow_le_mono_r; lia). lia.
Qed.

End Digits.

Section Shift.
Open Scope R_scope.

Lemma IZR_xO p : IZR (Zpos p~0) = 2 * IZR (Zpos p).
Proof. rewrite Pos2Z.inj_xO, mult_IZR. reflexivity. Qed.

Lemma IZR_xI p : IZR (Zpos p~1) = 2 * IZR (Zpos p) + 1.
Proof. rewrite Pos2Z.inj_xI, plus_IZR, mult_IZR. reflexivity. Qed.

Lemma loc_of_shr_record_of_loc m l :
  loc_of_shr_record (shr_record_of_loc m l) = l /\ shr_m (shr_record_of_loc m l) = m.
Proof. destruct l as [|[]]; split; reflexivity. Qed.

Lemma shr_1_located u mrs :
  (0 <= shr_m mrs)%Z ->
  located u (shr_m mrs) (loc_of_shr_record mrs) ->
  located (u * / 2) (shr_m (shr_1 mrs)) (loc_of_shr_record (shr_1 mrs))
  /\ (0 <= shr_m (shr_1 mrs))%Z.
Proof.
  destruct mrs as [m r s]. simpl shr_m.
  destruct m as [|p|p]; [| |lia]; intros _.
  - destruct r, s; simpl; intros H; split; try lia; lra.
  - destruct p as [p|p|].
    + pose proof (IZR_xI p) as E.
      destruct r, s; simpl; rewrite E; intros H; split; try lia; lra.
    + pose proof (IZR_xO p) as E.
      destruct r, s; simpl; rewrite E; intros H; split; try lia; lra.
    + destruct r, s; simpl; intros H; split; try lia; lra.
Qed.

Lemma iter_pos_shr_1_located p : forall u mrs,
  (0 <= shr_m mrs)%Z ->
  located u (shr_m mrs) (loc_of_shr_record mrs) ->
  located (u * bpow (- Zpos p)) (shr_m (SpecFloat.iter_pos shr_1 p mrs))
    (loc_of_shr_record (SpecFloat.iter_pos shr_1 p mrs))
  /\ (0 <= shr_m (SpecFloat.iter_pos shr_1 p mrs))%Z.
Proof.
  induction p as [p IH|p IH|]; intros u mrs Hm Hl; simpl SpecFloat.iter_pos.
  - destruct (shr_1_located u mrs Hm Hl) as [H1 H1'].
    destruct (IH _ _ H1' H1) as [H2 H2'].
    destruct (IH _ _ H2' H2) as [H3 H3'].
    split; [|assumption].
    replace (u * bpow (- Zpos p~1)) with (u * / 2 * bpow (- Zpos p) * bpow (- Zpos p));
      [assumption|].
    replace (- Zpos p~1)%Z with (-1 + (- Zpos p + - Zpos p))%Z by lia.
    rewrite !bpow_add, bpow_m1. lra.
  - destruct (IH _ _ Hm Hl) as [H2 H2'].
    destruct (IH _ _ H2' H2) as [H3 H3'].
    split; [|assumption].
    replace (u * bpow (- Zpos p~0)) with (u * bpow (- Zpos p) * bpow (- Zpos p));
      [assumption|].
    replace (- Zpos p~0)%Z with (- Zpos p + - Zpos p)%Z by lia.
    rewrite !bpow_add. lra.
  - change (Z.opp (Zpos 1)) with (Zneg 1). rewrite bpow_m1.
    now apply shr_1_located.
Qed.

(** Shifting keeps the place of [x]; only the exponent of the grid moves. *)
Lemma shr_loc_at x mrs e n :
  (0 <= shr_m mrs)%Z ->
  loc_at x (shr_m mrs) e (loc_of_shr_record mrs) ->
  let '(mrs', e') := shr mrs e n in
  loc_at x (shr_m mrs') e' (loc_of_shr_record mrs')
  /\ (0 <= shr_m mrs')%Z /\ e' = (e + Z.max n 0)%Z.
Proof.
  intros Hm Hl. unfold shr. destruct n as [|p|p].
  - split; [assumption|split; [assumption|lia]].
  - destruct (iter_pos_shr_1_located p _ _ Hm Hl) as [H1 H2].
    split; [|split; [assumption|lia]].
    unfold loc_at in *.
    replace (- (e + Zpos p))%Z with (- e + - Zpos p)%Z by lia.
    rewrite bpow_add, <- Rmult_assoc. exact H1.
  - split; [assumption|split; [assumption|lia]].
Qed.

Lemma shr_fexp_loc_at x m e l :
  (0 <= m)%Z ->
  loc_at x m e l ->
  let '(mrs', e') := shr_fexp prec emax m e l in
  loc_at x (shr_m mrs') e' (loc_of_shr_record mrs')
  /\ (0 <= shr_m mrs')%Z
  /\ e' = (e + Z.max (fexp prec emax (Zdigits2 m + e) - e) 0)%Z.
Proof.
  intros Hm Hl. unfold shr_fexp.
  destruct (loc_of_shr_record_of_loc m l) as [E1 E2].
  apply shr_loc_at; rewrite ?E1, ?E2; assumption.
Qed.

End Shift.

Section Stage.
Open Scope R_scope.

Lemma fexp_eq e : fexp prec emax e = fexp64 e.
Proof. reflexivity. Qed.

Lemma binary_round_aux_stage s m e l :
  binary_round_aux prec emax s m e l
  = let '(M, E) := rnd_stage m e l in pack s M E.
Proof.
  unfold binary_round_aux, rnd_stage, pack.
  destruct (shr_fexp prec emax m e l) as [mrs e']. reflexivity.
Qed.

Lemma located_bounds u m l : located u m l -> IZR m <= u < IZR m + 1.
Proof. destruct l as [|[]]; simpl; lra. Qed.

Lemma rne_bounds m l :
  (m <= round_nearest_even m l <= m + 1)%Z.
Proof. destruct l as [|[]]; simpl; try lia. destruct (Z.even m); lia. Qed.

Lemma rne_mono u u' m m' l l' :
  located u m l -> located u' m' l' -> u <= u' ->
  (round_nearest_even m l <= round_nearest_even m' l')%Z.
Proof.
  intros H H' Hu.
  pose proof (located_bounds _ _ _ H) as B.
  pose proof (located_bounds _ _ _ H') as B'.
  assert (Hm : (m < m' + 1)%Z).
  { apply lt_IZR. rewrite plus_IZR. lra. }
  destruct (Z.eq_dec m m') as [->|Hne].
  - destruct l as [|[]], l' as [|[]]; simpl in *; try lia; try lra;
      destruct (Z.even m'); lia.
  - pose proof (rne_bounds m l). pose proof (rne_bounds m' l'). lia.
Qed.

Lemma Zdigits2_succ_le m : (0 <= m)%Z -> (m + 1 <= 2 ^ Zdigits2 m)%Z.
Proof.
  intros H. destruct (Z.eq_dec m 0) as [->|]; [simpl; lia|].
  pose proof (Zdigits2_bounds m). lia.
Qed.

Lemma bpow_mul_IZR n e : (0 <= n)%Z -> IZR (2 ^ n) * bpow e = bpow (n + e).
Proof. intros H. rewrite bpow_add, (bpow_IZR n) by assumption. reflexivity. Qed.

(** What the preconditions say about the size of [x]. *)
Lemma input_upper x m e l :
  input_ok x m e l -> 0 <= x < bpow (Zdigits2 m + e).
Proof.
  intros (Hm & Hl & _). unfold loc_at in Hl.
  apply located_bounds in Hl.
  pose proof (bpow_pos e) as Pe. pose proof (bpow_pos (- e)) as Pne.
  assert (E : bpow (- e) * bpow e = 1).
  { rewrite <- bpow_add. replace (- e + e)%Z with 0%Z by lia. apply bpow_0. }
  assert (Hx : x = x * bpow (- e) * bpow e) by (rewrite Rmult_assoc, E; lra).
  apply IZR_le in Hm.
  pose proof (Zdigits2_succ_le m) as Hd.
  assert (IZR m + 1 <= IZR (2 ^ Zdigits2 m)).
  { rewrite <- plus_IZR. apply IZR_le. apply Hd. now apply le_IZR. }
  rewrite <- bpow_mul_IZR by apply Zdigits2_nonneg.
  split; [nra|]. rewrite Hx. 
  apply Rlt_le_trans with ((IZR m + 1) * bpow e); [nra|].
  apply Rmult_le_compat_r; lra.
Qed.

Lemma input_lower x m e l :
  input_ok x m e l -> (0 < m)%Z -> bpow (Zdigits2 m + e - 1) <= x.
Proof.
  intros (Hm & Hl & _) Hpos. unfold loc_at in Hl.
  apply located_bounds in Hl.
  pose proof (bpow_pos e) as Pe. pose proof (bpow_pos (- e)) as Pne.
  assert (E : bpow (- e) * bpow e = 1).
  { rewrite <- bpow_add. replace (- e + e)%Z with 0%Z by lia. apply bpow_0. }
  assert (Hx : x = x * bpow (- e) * bpow e) by (rewrite Rmult_assoc, E; lra).
  pose proof (Zdigits2_bounds m Hpos) as [Hd _].
  apply IZR_le in Hd.
  replace (Zdigits2 m + e - 1)%Z with ((Zdigits2 m - 1) + e)%Z by lia.
  assert (0 < Zdigits2 m)%Z by (destruct m; simpl; lia).
  rewrite <- bpow_mul_IZR by lia.
  rewrite Hx. apply Rmult_le_compat_r; lra.
Qed.

Lemma input_zero_emin x e l :
  input_ok x 0 e l -> fexp64 (Zdigits2 0 + e) = (-1074)%Z.
Proof. intros (_ & _ & Hf). unfold fine, fexp64 in *. simpl in *. lia. Qed.

(** The first shift and the rounding of the mantissa. *)
Lemma rnd_stage_spec x m e l :
  input_ok x m e l ->
  exists m1 l1,
    rnd_stage m e l = (round_nearest_even m1 l1, fexp64 (Zdigits2 m + e))
    /\ (0 <= m1)%Z
    /\ loc_at x m1 (fexp64 (Zdigits2 m + e)) l1.
Proof.
  intros (Hm & Hl & Hf). unfold rnd_stage.
  pose proof (shr_fexp_loc_at x m e l Hm Hl) as H.
  destruct (shr_fexp prec emax m e l) as [mrs e'].
  destruct H as (H1 & H2 & H3).
  exists (shr_m mrs), (loc_of_shr_record mrs).
  rewrite fexp_eq in H3. unfold fine in Hf.
  assert (E : e' = fexp64 (Zdigits2 m + e)) by lia.
  clear H3. subst e'.
  split; [reflexivity|split; assumption].
Qed.

End Stage.

Section StageBounds.
Open Scope R_scope.

Lemma bpow_cancel e : bpow (- e) * bpow e = 1.
Proof. rewrite <- bpow_add. replace (- e + e)%Z with 0%Z by lia. apply bpow_0. Qed.

Lemma scale_lt x g E : x < bpow g -> x * bpow (- E) < bpow (g - E).
Proof.
  intros H. unfold Z.sub. rewrite bpow_add.
  apply Rmult_lt_compat_r; [apply bpow_pos|assumption].
Qed.

Lemma scale_le x g E : bpow g <= x -> bpow (g - E) <= x * bpow (- E).
Proof.
  intros H. unfold Z.sub. rewrite bpow_add.
  apply Rmult_le_compat_r; [apply Rlt_le, bpow_pos|assumption].
Qed.

Lemma unscale x E : x = x * bpow (- E) * bpow E.
Proof. rewrite Rmult_assoc, bpow_cancel. lra. Qed.

Lemma int_lt_bpow m n : (0 <= n)%Z -> IZR m < bpow n -> (m < 2 ^ n)%Z.
Proof. intros Hn H. rewrite bpow_IZR in H by assumption. now apply lt_IZR. Qed.

Lemma int_ge_bpow m n : (0 <= n)%Z -> bpow n < IZR m + 1 -> (2 ^ n <= m)%Z.
Proof.
  intros Hn H. rewrite bpow_IZR in H by assumption.
  rewrite <- plus_IZR in H. apply lt_IZR in H. lia.
Qed.

Lemma stage_facts x m e l :
  input_ok x m e l ->
  exists m1 l1 M E,
    rnd_stage m e l = (M, E)
    /\ E = fexp64 (Zdigits2 m + e)
    /\ M = round_nearest_even m1 l1
    /\ (0 <= m1)%Z
    /\ loc_at x m1 E l1
    /\ canon M E
    /\ IZR M * bpow E <= bpow (Z.max (Zdigits2 m + e) E)
    /\ ((-1074 < E)%Z -> bpow (Zdigits2 m + e - 1) <= IZR M * bpow E).
Proof.
  intros Hin.
  destruct (rnd_stage_spec x m e l Hin) as (m1 & l1 & Hs & Hm1 & Hl1).
  pose proof (input_upper x m e l Hin) as [Hx0 Hxg].
  set (g := (Zdigits2 m + e)%Z) in *.
  set (E := fexp64 g) in *.
  exists m1, l1, (round_nearest_even m1 l1), E.
  pose proof (rne_bounds m1 l1) as HM.
  set (M := round_nearest_even m1 l1) in *.
  unfold loc_at in Hl1. pose proof (located_bounds _ _ _ Hl1) as Hu.
  pose proof (scale_lt x g E Hxg) as Hug.
  pose proof (bpow_pos E) as PE.
  assert (HE : (E = g - 53 \/ E = -1074)%Z /\ (-1074 <= E)%Z /\ (g - 53 <= E)%Z)
    by (unfold E, fexp64; lia).
  (* upper bounds *)
  assert (Hup : (M <= 2 ^ 53)%Z /\ IZR M * bpow E <= bpow (Z.max g E)).
  { destruct (Z_le_gt_dec 0 (g - E)) as [Hge|Hlt].
    - assert (m1 < 2 ^ (g - E))%Z by (apply int_lt_bpow; [assumption|lra]).
      assert (M <= 2 ^ (g - E))%Z by lia.
      split.
      + assert (2 ^ (g - E) <= 2 ^ 53)%Z by (apply Z.pow_le_mono_r; lia). lia.
      + replace (Z.max g E) with ((g - E) + E)%Z by lia.
        rewrite <- bpow_mul_IZR by assumption.
        apply Rmult_le_compat_r; [lra|]. now apply IZR_le.
    - assert (bpow (g - E) < bpow 0) by (apply bpow_lt; lia).
      rewrite bpow_0 in *.
      assert (m1 < 1)%Z by (apply lt_IZR; lra).
      assert (M <= 1)%Z by lia.
      split; [lia|].
      replace (Z.max g E) with E by lia.
      apply IZR_le in H1. nra. }
  (* lower bounds *)
  assert (Hlow : (-1074 < E)%Z -> (2 ^ 52 <= M)%Z /\ bpow (g - 1) <= IZR M * bpow E).
  { intros HEn.
    assert (Hmpos : (0 < m)%Z).
    { destruct Hin as (Hm & _ & Hf).
      destruct (Z.eq_dec m 0) as [->|]; [|lia].
      exfalso. unfold fine, fexp64 in Hf. unfold E, g, fexp64 in HEn.
      simpl in *. lia. }
    pose proof (input_lower x m e l Hin Hmpos) as Hlo. fold g in Hlo.
    pose proof (scale_le x (g - 1) E Hlo) as Hlo'.
    replace (g - 1 - E)%Z with 52%Z in Hlo' by lia.
    assert (2 ^ 52 <= m1)%Z by (apply int_ge_bpow; [lia|lra]).
    assert (2 ^ 52 <= M)%Z by lia.
    split; [assumption|].
    replace (g - 1)%Z with (52 + E)%Z by lia.
    rewrite <- bpow_mul_IZR by lia.
    apply Rmult_le_compat_r; [lra|]. now apply IZR_le. }
  repeat split; try assumption; try tauto; try lia.
Qed.

(** Rounding is monotone in the value it rounds. *)
Lemma stage_mono x y mx ex lx my ey ly Mx Ex My Ey :
  input_ok x mx ex lx -> input_ok y my ey ly -> x <= y ->
  rnd_stage mx ex lx = (Mx, Ex) -> rnd_stage my ey ly = (My, Ey) ->
  IZR Mx * bpow Ex <= IZR My * bpow Ey.
Proof.
  intros Hx Hy Hxy Sx Sy.
  destruct (stage_facts _ _ _ _ Hx)
    as (m1x & l1x & Mx' & Ex' & Sx' & HEx & HMx & Hm1x & Hlx & Hcx & Hux & Hlox).
  destruct (stage_facts _ _ _ _ Hy)
    as (m1y & l1y & My' & Ey' & Sy' & HEy & HMy & Hm1y & Hly & Hcy & Huy & Hloy).
  rewrite Sx in Sx'. injection Sx' as <- <-.
  rewrite Sy in Sy'. injection Sy' as <- <-.
  set (gx := (Zdigits2 mx + ex)%Z) in *.
  set (gy := (Zdigits2 my + ey)%Z) in *.
  pose proof (input_upper _ _ _ _ Hx) as [Hx0 Hxg]. fold gx in Hxg.
  pose proof (input_upper _ _ _ _ Hy) as [Hy0 Hyg]. fold gy in Hyg.
  assert (HEle : (Ex <= Ey)%Z).
  { destruct (Z.eq_dec mx 0) as [->|Hne].
    - pose proof (input_zero_emin _ _ _ Hx) as Hz. fold gx in Hz.
      rewrite HEx, HEy, Hz. unfold fexp64. lia.
    - assert (0 < mx)%Z by (destruct Hx; lia).
      pose proof (input_lower _ _ _ _ Hx H) as Hlo. fold gx in Hlo.
      assert (gx - 1 < gy)%Z by (apply bpow_lt_inv; lra).
      rewrite HEx, HEy. unfold fexp64. lia. }
  destruct (Z.eq_dec Ex Ey) as [Heq|Hne].
  - rewrite <- Heq in *.
    assert (Mx <= My)%Z.
    { rewrite HMx, HMy. eapply rne_mono; [exact Hlx|exact Hly|].
      apply Rmult_le_compat_r; [apply Rlt_le, bpow_pos|assumption]. }
    apply Rmult_le_compat_r; [apply Rlt_le, bpow_pos|now apply IZR_le].
  - assert (Hlt : (Ex < Ey)%Z) by lia.
    assert (Hn : (-1074 < Ey)%Z) by (destruct Hcx as (_ & ? & _); lia).
    specialize (Hloy Hn).
    apply Rle_trans with (bpow (gy - 1)); [|assumption].
    apply Rle_trans with (bpow (Z.max gx Ex)); [assumption|].
    apply bpow_le. rewrite HEx, HEy in *. unfold fexp64 in *. lia.
Qed.

End StageBounds.

Section Pack.
Open Scope R_scope.

Lemma Zdigits2_le m n : (0 < m < 2 ^ n)%Z -> (0 <= n)%Z -> (Zdigits2 m <= n)%Z.
Proof.
  intros H Hn. pose proof (Zdigits2_bounds m ltac:(lia)) as [H1 _].
  destruct (Z_le_gt_dec (Zdigits2 m) n) as [|Hgt]; [assumption|].
  assert (2 ^ n <= 2 ^ (Zdigits2 m - 1))%Z by (apply Z.pow_le_mono_r; lia). lia.
Qed.

Lemma shr_nonpos mrs e n : (n <= 0)%Z -> shr mrs e n = (mrs, e).
Proof. destruct n; simpl; [reflexivity|lia|reflexivity]. Qed.

Lemma pack_zero s E : (-1074 <= E)%Z -> pack s 0 E = S754_zero s.
Proof.
  intros HE. unfold pack, shr_fexp. rewrite fexp_eq, shr_nonpos; [reflexivity|].
  unfold fexp64. simpl Zdigits2. lia.
Qed.

Lemma pack_small s M E :
  (0 < M < 2 ^ 53)%Z -> (-1074 <= E)%Z ->
  pack s M E
  = if (E <=? 971)%Z then S754_finite s (Z.to_pos M) E else S754_infinity s.
Proof.
  intros HM HE. unfold pack, shr_fexp. rewrite fexp_eq, shr_nonpos.
  - simpl. destruct M as [|p|p]; try lia. reflexivity.
  - pose proof (Zdigits2_le M 53 HM ltac:(lia)). unfold fexp64. lia.
Qed.

Lemma pack_top s E :
  (-1074 <= E)%Z ->
  pack s (2 ^ 53) E
  = if (E + 1 <=? 971)%Z then S754_finite s (2 ^ 52)%positive (E + 1)
    else S754_infinity s.
Proof.
  intros HE. unfold pack, shr_fexp. rewrite fexp_eq.
  replace (fexp64 (Zdigits2 (2 ^ 53) + E) - E)%Z with 1%Z.
  - reflexivity.
  - change (Zdigits2 (2 ^ 53)) with 54%Z. unfold fexp64. lia.
Qed.

Lemma pack_norm s M E :
  canon M E -> (0 < M)%Z ->
  exists M' E',
    norm M E = (M', E')
    /\ pack s M E
       = (if (E' <=? 971)%Z then S754_finite s (Z.to_pos M') E' else S754_infinity s)
    /\ canon' M' E'
    /\ IZR M' * bpow E' = IZR M * bpow E.
Proof.
  intros (HM & HE & Hn) Hpos. unfold norm.
  destruct (Z.eqb_spec M (2 ^ 53)) as [->|Hne].
  - exists (2 ^ 52)%Z, (E + 1)%Z. split; [reflexivity|]. split; [|split].
    + rewrite pack_top by assumption. reflexivity.
    + unfold canon'. lia.
    + rewrite bpow_succ. change (2 ^ 53)%Z with (2 * 2 ^ 52)%Z.
      rewrite mult_IZR. lra.
  - exists M, E. split; [reflexivity|]. split; [|split].
    + apply pack_small; lia.
    + unfold canon'. lia.
    + reflexivity.
Qed.

(** On finished mantissas the order of the values is the lexicographic
    order of exponent and mantissa. *)
Lemma lex_of_value Mx Ex My Ey :
  canon' Mx Ex -> canon' My Ey ->
  IZR Mx * bpow Ex <= IZR My * bpow Ey ->
  (Ex < Ey)%Z \/ (Ex = Ey /\ (Mx <= My)%Z).
Proof.
  intros (HMx & HEx & Hnx) (HMy & HEy & Hny) Hv.
  destruct (Z.lt_trichotomy Ex Ey) as [Hlt|[Heq|Hgt]]; [now left| |].
  - right. split; [assumption|]. subst Ey.
    pose proof (bpow_pos Ex). apply le_IZR. nra.
  - exfalso.
    assert (2 ^ 52 <= Mx)%Z by lia.
    assert (bpow (53 + Ey) <= bpow (52 + Ex)) by (apply bpow_le; lia).
    rewrite <- !bpow_mul_IZR in H0 by lia.
    assert (IZR My < IZR (2 ^ 53)) by (apply IZR_lt; lia).
    assert (IZR (2 ^ 52) <= IZR Mx) by (apply IZR_le; lia).
    pose proof (bpow_pos Ex). pose proof (bpow_pos Ey). nra.
Qed.

Lemma value_of_lex Mx Ex My Ey :
  canon' Mx Ex -> canon' My Ey ->
  (Ex < Ey)%Z \/ (Ex = Ey /\ (Mx <= My)%Z) ->
  IZR Mx * bpow Ex <= IZR My * bpow Ey.
Proof.
  intros (HMx & HEx & Hnx) (HMy & HEy & Hny) [Hlt|[-> Hle]].
  - assert (2 ^ 52 <= My)%Z by lia.
    assert (bpow (53 + Ex) <= bpow (52 + Ey)) by (apply bpow_le; lia).
    rewrite <- !bpow_mul_IZR in H0 by lia.
    assert (IZR Mx < IZR (2 ^ 53)) by (apply IZR_lt; lia).
    assert (IZR (2 ^ 52) <= IZR My) by (apply IZR_le; lia).
    pose proof (bpow_pos Ex). pose proof (bpow_pos Ey). nra.
  - apply Rmult_le_compat_r; [apply Rlt_le, bpow_pos|now apply IZR_le].
Qed.

Lemma SFleb_finite_lex mx ex my ey :
  (ex < ey)%Z \/ (ex = ey /\ (Zpos mx <= Zpos my)%Z) ->
  SFleb (S754_finite false mx ex) (S754_finite false my ey) = true.
Proof.
  intros H. unfold SFleb, SFcompare.
  destruct (Z.compare_spec ex ey) as [->|Hlt|Hgt]; [|reflexivity|lia].
  change (Pos.compare_cont Eq mx my) with (Pos.compare mx my).
  destruct (Pos.compare_spec mx my); [reflexivity|reflexivity|lia].
Qed.

Lemma SFleb_finite_lex_inv mx ex my ey :
  SFleb (S754_finite false mx ex) (S754_finite false my ey) = true ->
  (ex < ey)%Z \/ (ex = ey /\ (Zpos mx <= Zpos my)%Z).
Proof.
  unfold SFleb, SFcompare.
  destruct (Z.compare_spec ex ey) as [->|Hlt|Hgt]; [|now left|discriminate].
  change (Pos.compare_cont Eq mx my) with (Pos.compare mx my).
  destruct (Pos.compare_spec mx my); intros; try discriminate; right; split; lia.
Qed.

Lemma pack_le Mx Ex My Ey :
  canon Mx Ex -> canon My Ey ->
  IZR Mx * bpow Ex <= IZR My * bpow Ey ->
  SFleb (pack false Mx Ex) (pack false My Ey) = true.
Proof.
  intros Hcx Hcy Hv.
  assert (Hy0 : (0 <= My)%Z) by (destruct Hcy; lia).
  destruct (Z.eq_dec Mx 0) as [->|Hx0].
  - rewrite pack_zero by (destruct Hcx; lia).
    destruct (Z.eq_dec My 0) as [->|Hy1].
    + rewrite pack_zero by (destruct Hcy; lia). reflexivity.
    + destruct (pack_norm false My Ey Hcy ltac:(lia)) as (M' & E' & _ & -> & _).
      destruct (E' <=? 971)%Z; reflexivity.
  - assert (Hxpos : (0 < Mx)%Z) by (destruct Hcx; lia).
    assert (Hypos : (0 < My)%Z).
    { destruct (Z.eq_dec My 0) as [->|]; [|lia].
      apply IZR_lt in Hxpos. pose proof (bpow_pos Ex). simpl in Hv. nra. }
    destruct (pack_norm false Mx Ex Hcx Hxpos) as (Mx' & Ex' & _ & -> & Hcx' & Vx).
    destruct (pack_norm false My Ey Hcy Hypos) as (My' & Ey' & _ & -> & Hcy' & Vy).
    rewrite <- Vx, <- Vy in Hv.
    pose proof (lex_of_value _ _ _ _ Hcx' Hcy' Hv) as Hlex.
    destruct (Z.leb_spec Ex' 971), (Z.leb_spec Ey' 971); try reflexivity.
    + apply SFleb_finite_lex.
      destruct Hcx' as (? & _), Hcy' as (? & _).
      rewrite !Z2Pos.id by lia. exact Hlex.
    + lia.
Qed.

(** Rounding two values in the same order gives results in that order. *)
Lemma bra_mono x y mx ex lx my ey ly :
  input_ok x mx ex lx -> input_ok y my ey ly -> x <= y ->
  SFleb (binary_round_aux prec emax false mx ex lx)
        (binary_round_aux prec emax false my ey ly) = true.
Proof.
  intros Hx Hy Hxy. rewrite !binary_round_aux_stage.
  destruct (stage_facts _ _ _ _ Hx) as (? & ? & Mx & Ex & Sx & _ & _ & _ & _ & Hcx & _).
  destruct (stage_facts _ _ _ _ Hy) as (? & ? & My & Ey & Sy & _ & _ & _ & _ & Hcy & _).
  pose proof (stage_mono _ _ _ _ _ _ _ _ _ _ _ _ Hx Hy Hxy Sx Sy).
  rewrite Sx, Sy. now apply pack_le.
Qed.

End Pack.

Section Rounded.
Open Scope R_scope.

Lemma valid_finite s m e :
  valid (S754_finite s m e) ->
  canon' (Zpos m) e /\ (e <= 971)%Z /\ fexp64 (Zdigits2 (Zpos m) + e) = e.
Proof.
  unfold valid. cbn [SpecFloat.valid_binary].
  unfold SpecFloat.bounded, SpecFloat.canonical_mantissa.
  rewrite andb_true_iff, Z.eqb_eq, Z.leb_le, fexp_eq.
  intros [Hc He]. change (emax - prec)%Z with 971%Z in He.
  change (Zdigits2 (Zpos m)) with (Zpos (digits2_pos m)).
  pose proof (digits2_bounds m) as [Hlo Hhi].
  set (d := Zpos (digits2_pos m)) in *.
  assert (Hd : (0 < d)%Z) by (unfold d; lia).
  unfold fexp64 in *.
  assert (Hd53 : (d <= 53)%Z) by lia.
  assert (2 ^ d <= 2 ^ 53)%Z by (apply Z.pow_le_mono_r; lia).
  repeat split; try lia.
  intros Hn. assert (d = 53%Z) by lia.
  replace (d - 1)%Z with 52%Z in Hlo by lia. exact Hlo.
Qed.

Lemma valid_input s m e :
  valid (S754_finite s m e) ->
  input_ok (IZR (Zpos m) * bpow e) (Zpos m) e loc_Exact.
Proof.
  intros H. destruct (valid_finite _ _ _ H) as (_ & _ & Hf).
  split; [lia|]. split.
  - unfold loc_at, located. rewrite Rmult_assoc, (Rmult_comm (bpow e)), bpow_cancel. lra.
  - unfold fine. lia.
Qed.

(** Rounding a value that is already a binary64 value changes nothing. *)
Lemma bra_id m e :
  valid (S754_finite false m e) ->
  binary_round_aux prec emax false (Zpos m) e loc_Exact = S754_finite false m e.
Proof.
  intros H. destruct (valid_finite _ _ _ H) as (Hc & He & Hf).
  rewrite binary_round_aux_stage. unfold rnd_stage, shr_fexp.
  rewrite fexp_eq, shr_nonpos by lia. simpl shr_m. simpl loc_of_shr_record.
  simpl round_nearest_even.
  destruct Hc as (HM & HE & _).
  rewrite pack_small by lia.
  destruct (Z.leb_spec e 971); [reflexivity|lia].
Qed.

Lemma val_RND a : nonneg a -> valid a -> RND (val a) a.
Proof.
  destruct a as [s|[]| |[] m e]; simpl; try contradiction; intros _ Hv.
  - left. split; [reflexivity|]. now exists s.
  - reflexivity.
  - right. exists (Zpos m), e, loc_Exact. split; [now apply (valid_input false)|].
    symmetry. now apply bra_id.
Qed.

Lemma val_le a b :
  nonneg a -> nonneg b -> valid a -> valid b ->
  SFleb a b = true -> le_ext (val a) (val b).
Proof.
  destruct a as [sa|[]| |[] ma ea], b as [sb|[]| |[] mb eb]; simpl;
    try contradiction; try discriminate; try (intros; exact I);
    intros _ _ Ha Hb H.
  - lra.
  - pose proof (bpow_pos eb). assert (0 < IZR (Zpos mb)) by (apply IZR_lt; lia). nra.
  - apply SFleb_finite_lex_inv in H.
    apply value_of_lex; [apply (valid_finite false), Ha|apply (valid_finite false), Hb|exact H].
Qed.

Lemma bra_zero m e l :
  input_ok 0 m e l -> binary_round_aux prec emax false m e l = S754_zero false.
Proof.
  intros Hin. rewrite binary_round_aux_stage.
  destruct (stage_facts _ _ _ _ Hin) as (m1 & l1 & M & E & -> & _ & HM & Hm1 & Hl & Hc & _).
  unfold loc_at in Hl. rewrite Rmult_0_l in Hl.
  pose proof (located_bounds _ _ _ Hl) as B.
  assert (m1 = 0%Z).
  { apply IZR_le in Hm1. apply eq_IZR. lra. }
  subst m1. assert (HM0 : M = 0%Z).
  { subst M. destruct l1 as [|[]]; simpl in Hl; try lra; reflexivity. }
  rewrite HM0. apply pack_zero. destruct Hc; lia.
Qed.

Lemma bra_cases x m e l :
  input_ok x m e l ->
  (exists s, binary_round_aux prec emax false m e l = S754_zero s)
  \/ (exists m' e', binary_round_aux prec emax false m e l = S754_finite false m' e')
  \/ binary_round_aux prec emax false m e l = S754_infinity false.
Proof.
  intros Hin. rewrite binary_round_aux_stage.
  destruct (stage_facts _ _ _ _ Hin) as (m1 & l1 & M & E & -> & _ & _ & _ & _ & Hc & _).
  destruct (Z.eq_dec M 0) as [->|Hne].
  - left. exists false. apply pack_zero. destruct Hc; lia.
  - right. destruct (pack_norm false M E Hc ltac:(destruct Hc; lia)) as (M' & E' & _ & -> & _).
    destruct (E' <=? 971)%Z; eauto.
Qed.

Lemma RND_nonneg v a : RND v a -> nonneg a.
Proof.
  destruct v as [x|]; simpl.
  - intros [[_ [s ->]]|(m & e & l & Hin & ->)]; [exact I|].
    destruct (bra_cases _ _ _ _ Hin) as [[s ->]|[(m' & e' & ->)| ->]]; exact I.
  - intros ->. exact I.
Qed.

Lemma nonneg_le_inf a : nonneg a -> SFleb a (S754_infinity false) = true.
Proof. destruct a as [s|[]| |[] m e]; simpl; try contradiction; reflexivity. Qed.

Lemma zero_le_nonneg s a : nonneg a -> SFleb (S754_zero s) a = true.
Proof. destruct a as [s'|[]| |[] m e]; simpl; try contradiction; reflexivity. Qed.

(** Rounding is monotone on the non-negative values, the infinity
    included. *)
Lemma RND_mono v w a b : RND v a -> RND w b -> le_ext v w -> SFleb a b = true.
Proof.
  intros Ha Hb Hle.
  pose proof (RND_nonneg _ _ Ha) as Na. pose proof (RND_nonneg _ _ Hb) as Nb.
  destruct w as [y|]; [|simpl in Hb; subst b; now apply nonneg_le_inf].
  destruct v as [x|]; [|contradiction].
  simpl in Hle.
  destruct Ha as [[-> [s ->]]|(mx & ex & lx & Hx & ->)].
  - now apply zero_le_nonneg.
  - destruct Hb as [[-> [s ->]]|(my & ey & ly & Hy & ->)].
    + pose proof (input_upper _ _ _ _ Hx) as [Hx0 _].
      assert (x = 0) by lra. subst x.
      rewrite (bra_zero _ _ _ Hx). reflexivity.
    + now apply (bra_mono x y).
Qed.

End Rounded.

Section Normalize.
Open Scope R_scope.

Lemma pos_iter_xO m d : Zpos (Pos.iter xO m d) = (Zpos m * 2 ^ Zpos d)%Z.
Proof.
  induction d as [|d IH] using Pos.peano_ind.
  - simpl. lia.
  - rewrite Pos.iter_succ, Pos2Z.inj_xO, IH, Pos2Z.inj_succ, Z.pow_succ_r by lia. lia.
Qed.

Lemma shl_align_spec m e e' :
  let '(mz, ez) := shl_align m e e' in
  ez = Z.min e e' /\ Zpos mz = (Zpos m * 2 ^ (e - ez))%Z.
Proof.
  unfold shl_align. destruct (e' - e)%Z as [|d|d] eqn:E.
  - split; [lia|]. replace (e - e)%Z with 0%Z by lia. lia.
  - split; [lia|]. replace (e - e)%Z with 0%Z by lia. lia.
  - split; [lia|]. rewrite pos_iter_xO. f_equal. f_equal. lia.
Qed.

Lemma Zdigits2_shift m n :
  (0 < m)%Z -> (0 <= n)%Z -> Zdigits2 (m * 2 ^ n) = (Zdigits2 m + n)%Z.
Proof.
  intros Hm Hn. pose proof (Zdigits2_bounds m Hm) as [Hlo Hhi].
  assert (0 < 2 ^ n)%Z by (apply Z.pow_pos_nonneg; lia).
  assert (0 < Zdigits2 m)%Z by (destruct m; simpl; lia).
  apply Zdigits2_unique; [|lia].
  replace (Zdigits2 m + n - 1)%Z with ((Zdigits2 m - 1) + n)%Z by lia.
  rewrite !Z.pow_add_r by lia. nia.
Qed.

Lemma IZR_shift m n e : (0 <= n)%Z -> IZR (m * 2 ^ n) * bpow e = IZR m * bpow (n + e).
Proof. intros H. rewrite mult_IZR, Rmult_assoc, bpow_mul_IZR by assumption. reflexivity. Qed.

Lemma binary_round_RND m e x :
  x = IZR (Zpos m) * bpow e ->
  RND (Some x) (binary_round prec emax false m e).
Proof.
  intros ->. right. unfold binary_round.
  pose proof (shl_align_spec m e (fexp prec emax (Zpos (digits2_pos m) + e))) as H.
  destruct (shl_align m e _) as [mz ez]. destruct H as [Hez Hmz].
  exists (Zpos mz), ez, loc_Exact. split; [|reflexivity].
  rewrite fexp_eq in Hez.
  change (Zpos (digits2_pos m)) with (Zdigits2 (Zpos m)) in Hez.
  assert (He : (0 <= e - ez)%Z) by lia.
  split; [lia|]. split.
  - unfold loc_at, located.
    rewrite Hmz, mult_IZR, <- (bpow_IZR (e - ez)) by assumption.
    rewrite Rmult_assoc, <- bpow_add.
    replace (e + - ez)%Z with (e - ez)%Z by lia. reflexivity.
  - unfold fine. rewrite Hmz, Zdigits2_shift by lia.
    replace (Zdigits2 (Zpos m) + (e - ez) + ez)%Z with (Zdigits2 (Zpos m) + e)%Z by lia.
    lia.
Qed.

Lemma bn_RND M e x :
  (0 <= M)%Z -> x = IZR M * bpow e ->
  RND (Some x) (binary_normalize prec emax M e false).
Proof.
  intros HM ->. destruct M as [|p|p]; [| |lia].
  - left. split; [simpl; lra|]. now exists false.
  - simpl binary_normalize. now apply binary_round_RND.
Qed.

End Normalize.

Section Operations.
Open Scope R_scope.

Lemma fin_nonneg_val a : fin_nonneg a -> val a = Some (fval a) /\ nonneg a.
Proof. destruct a as [s|[]| |[] m e]; simpl; try contradiction; auto. Qed.

Lemma fval_pos m e : 0 < IZR (Zpos m) * bpow e.
Proof.
  pose proof (bpow_pos e). assert (0 < IZR (Zpos m)) by (apply IZR_lt; lia). nra.
Qed.

Lemma aligned m e ez :
  (ez <= e)%Z ->
  IZR (Zpos (fst (shl_align m e ez))) * bpow ez = IZR (Zpos m) * bpow e.
Proof.
  intros H. pose proof (shl_align_spec m e ez) as S.
  destruct (shl_align m e ez) as [mz ez']. simpl fst. destruct S as [-> ->].
  rewrite Z.min_r by assumption.
  rewrite IZR_shift by lia. f_equal. f_equal. lia.
Qed.

Lemma le_ext_map (f : R -> R) v w :
  (forall a b, 0 <= a -> a <= b -> f a <= f b) ->
  match v with Some a => 0 <= a | None => True end ->
  le_ext v w -> le_ext (option_map f v) (option_map f w).
Proof.
  intros Hf H0. destruct v as [a|], w as [b|]; simpl; auto.
Qed.

Lemma val_nonneg a : nonneg a -> match val a with Some x => 0 <= x | None => True end.
Proof.
  destruct a as [s|[]| |[] m e]; simpl; try contradiction; intros _; try lra; auto.
  apply Rlt_le, fval_pos.
Qed.

(** [x - c] rounds the difference of the values, when [c <= x]. *)
Lemma SFsub_RND x c :
  nonneg x -> valid x -> fin_nonneg c -> valid c ->
  le_ext (Some (fval c)) (val x) ->
  RND (option_map (fun v => v - fval c) (val x)) (SFsub prec emax x c).
Proof.
  intros Nx Vx Nc Vc Hle.
  destruct x as [sx|[]| |[] mx ex]; simpl in Nx; try contradiction.
  - (* x is a zero *)
    destruct c as [sc|[]| |[] mc ec]; simpl in Nc; try contradiction.
    + simpl. left. split; [lra|]. destruct sx, sc; eauto.
    + simpl in Hle. pose proof (fval_pos mc ec). lra.
  - (* x is the infinity *)
    destruct c as [sc|[]| |[] mc ec]; simpl in Nc; try contradiction; reflexivity.
  - (* x is finite *)
    destruct c as [sc|[]| |[] mc ec]; simpl in Nc; try contradiction.
    + simpl option_map. simpl SFsub. rewrite Rminus_0_r.
      now apply (val_RND (S754_finite false mx ex)).
    + simpl in Hle. simpl option_map. cbn [SFsub cond_Zopp].
      pose proof (aligned mx ex (Z.min ex ec) ltac:(lia)) as Ax.
      pose proof (aligned mc ec (Z.min ex ec) ltac:(lia)) as Ac.
      set (A := Zpos (fst (shl_align mx ex (Z.min ex ec)))) in *.
      set (B := Zpos (fst (shl_align mc ec (Z.min ex ec)))) in *.
      pose proof (bpow_pos (Z.min ex ec)) as P.
      apply bn_RND.
      * apply le_IZR. rewrite minus_IZR. nra.
      * rewrite minus_IZR. lra.
Qed.

(** [l + x] rounds the sum of the values. *)
Lemma SFadd_RND l x :
  fin_nonneg l -> valid l -> nonneg x -> valid x ->
  RND (option_map (fun v => fval l + v) (val x)) (SFadd prec emax l x).
Proof.
  intros Nl Vl Nx Vx.
  destruct l as [sl|[]| |[] ml el]; simpl in Nl; try contradiction.
  - (* l is a zero *)
    destruct x as [sx|[]| |[] mx ex]; simpl in Nx; try contradiction.
    + simpl. left. split; [lra|]. destruct sl, sx; eauto.
    + reflexivity.
    + simpl option_map. simpl SFadd. rewrite Rplus_0_l.
      now apply (val_RND (S754_finite false mx ex)).
  - (* l is finite *)
    destruct x as [sx|[]| |[] mx ex]; simpl in Nx; try contradiction.
    + simpl option_map. simpl SFadd. rewrite Rplus_0_r.
      now apply (val_RND (S754_finite false ml el)).
    + reflexivity.
    + simpl option_map. cbn [SFadd cond_Zopp].
      pose proof (aligned ml el (Z.min el ex) ltac:(lia)) as Al.
      pose proof (aligned mx ex (Z.min el ex) ltac:(lia)) as Ax.
      set (A := Zpos (fst (shl_align ml el (Z.min el ex)))) in *.
      set (B := Zpos (fst (shl_align mx ex (Z.min el ex)))) in *.
      apply bn_RND.
      * unfold A, B. lia.
      * rewrite plus_IZR. simpl fval. lra.
Qed.

End Operations.

Section MulDiv.
Open Scope R_scope.

Lemma Zdigits2_ge m n : (0 <= n)%Z -> (2 ^ n <= m)%Z -> (n + 1 <= Zdigits2 m)%Z.
Proof.
  intros Hn H. assert (0 < 2 ^ n)%Z by (apply Z.pow_pos_nonneg; lia).
  pose proof (Zdigits2_bounds m ltac:(lia)) as [_ Hhi].
  pose proof (Zdigits2_nonneg m).
  destruct (Z_lt_le_dec n (Zdigits2 m)) as [|Hle]; [lia|].
  assert (2 ^ Zdigits2 m <= 2 ^ n)%Z by (apply Z.pow_le_mono_r; lia). lia.
Qed.

Lemma Zdigits2_pos m : (0 < m)%Z -> (0 < Zdigits2 m)%Z.
Proof. destruct m; simpl; lia. Qed.

Lemma Zdigits2_mul_ge a b :
  (0 < a)%Z -> (0 < b)%Z -> (Zdigits2 a + Zdigits2 b - 1 <= Zdigits2 (a * b))%Z.
Proof.
  intros Ha Hb.
  pose proof (Zdigits2_bounds a Ha) as [La _].
  pose proof (Zdigits2_bounds b Hb) as [Lb _].
  pose proof (Zdigits2_pos a Ha). pose proof (Zdigits2_pos b Hb).
  assert (2 ^ (Zdigits2 a - 1 + (Zdigits2 b - 1)) <= a * b)%Z.
  { rewrite Z.pow_add_r by lia.
    assert (0 < 2 ^ (Zdigits2 a - 1))%Z by (apply Z.pow_pos_nonneg; lia).
    assert (0 < 2 ^ (Zdigits2 b - 1))%Z by (apply Z.pow_pos_nonneg; lia).
    nia. }
  apply Zdigits2_ge in H1; lia.
Qed.

(** [k * x] rounds the product of the values. *)
Lemma SFmul_RND k x :
  valid k -> (exists mk ek, k = S754_finite false mk ek) ->
  nonneg x -> valid x ->
  RND (option_map (fun v => fval k * v) (val x)) (SFmul prec emax k x).
Proof.
  intros Vk (mk & ek & ->) Nx Vx.
  destruct x as [sx|[]| |[] mx ex]; simpl in Nx; try contradiction.
  - simpl. left. split; [lra|]. eauto.
  - reflexivity.
  - simpl option_map. cbn [SFmul xorb]. right.
    exists (Zpos (mk * mx)), (ek + ex)%Z, loc_Exact. split; [|reflexivity].
    destruct (valid_finite _ _ _ Vk) as (Hck & _ & Hfk).
    destruct (valid_finite _ _ _ Vx) as (Hcx & _ & Hfx).
    split; [lia|]. split.
    + unfold loc_at, located. simpl fval.
      rewrite Pos2Z.inj_mul, mult_IZR.
      replace (- (ek + ex))%Z with (- ek + - ex)%Z by lia.
      rewrite bpow_add.
      pose proof (bpow_cancel ek). pose proof (bpow_cancel ex).
      transitivity (IZR (Zpos mk) * IZR (Zpos mx) * (bpow (- ek) * bpow ek)
                    * (bpow (- ex) * bpow ex)); [ring|].
      rewrite H, H0. ring.
    + unfold fine. rewrite Pos2Z.inj_mul.
      pose proof (Zdigits2_mul_ge (Zpos mk) (Zpos mx) ltac:(lia) ltac:(lia)).
      pose proof (Zdigits2_pos (Zpos mk) ltac:(lia)).
      pose proof (Zdigits2_pos (Zpos mx) ltac:(lia)).
      unfold fexp64 in *. lia.
Qed.

Lemma Rdiv_lt_l a b n : 0 < n -> a < b * n -> a / n < b.
Proof.
  intros Hn H. apply Rmult_lt_reg_r with n; [assumption|].
  unfold Rdiv. rewrite Rmult_assoc, Rinv_l by lra. lra.
Qed.

Lemma Rdiv_lt_r a b n : 0 < n -> b * n < a -> b < a / n.
Proof.
  intros Hn H. apply Rmult_lt_reg_r with n; [assumption|].
  unfold Rdiv. rewrite Rmult_assoc, Rinv_l by lra. lra.
Qed.

Lemma new_location_located nb k q :
  (0 < nb)%Z -> (0 <= k < nb)%Z ->
  located (IZR q + IZR k / IZR nb) q (new_location nb k).
Proof.
  intros Hnb Hk.
  assert (Pn : 0 < IZR nb) by (apply IZR_lt; lia).
  set (t := IZR k / IZR nb).
  assert (Hk1 : IZR k < IZR nb) by (apply IZR_lt; lia).
  assert (T1 : t < 1) by (apply Rdiv_lt_l; lra).
  unfold new_location, new_location_even, new_location_odd.
  destruct (Z.eqb_spec k 0) as [->|Hne].
  - assert (t = 0) by (unfold t; field; lra).
    destruct (Z.even nb); simpl; lra.
  - assert (Hk0 : 0 < IZR k) by (apply IZR_lt; lia).
    assert (T0 : 0 < t) by (apply Rdiv_lt_r; lra).
    assert (Lt2 : (2 * k < nb)%Z -> t < / 2).
    { intros L. apply IZR_lt in L. rewrite mult_IZR in L.
      apply Rdiv_lt_l; lra. }
    assert (Gt2 : (nb < 2 * k)%Z -> / 2 < t).
    { intros G. apply IZR_lt in G. rewrite mult_IZR in G.
      apply Rdiv_lt_r; lra. }
    assert (Hk0' : (k =? 0)%Z = false) by (apply Z.eqb_neq; assumption).
    destruct (Z.even nb) eqn:Ev; rewrite ?Hk0'.
    + destruct (Z.compare_spec (2 * k) nb) as [E|L|G]; simpl.
      * assert (t = / 2); [|lra].
        unfold t. rewrite <- E, mult_IZR. field. lra.
      * specialize (Lt2 L). lra.
      * specialize (Gt2 G). lra.
    + assert (Hodd : Z.odd nb = true) by (rewrite <- Z.negb_even, Ev; reflexivity).
      apply Z.odd_spec in Hodd. destruct Hodd as [c Hc].
      destruct (Z.compare_spec (2 * k + 1) nb) as [E|L|G]; simpl.
      * specialize (Lt2 ltac:(lia)). lra.
      * specialize (Lt2 ltac:(lia)). lra.
      * specialize (Gt2 ltac:(lia)). lra.
Qed.

Lemma div_lower m1 m2 d1 d2 s :
  (0 < m2 < 2 ^ d2)%Z -> (2 ^ (d1 - 1) <= m1)%Z -> (0 <= s)%Z -> (0 < d1)%Z ->
  (0 <= d1 - 1 + s - d2)%Z ->
  (2 ^ (d1 - 1 + s - d2) <= m1 * 2 ^ s / m2)%Z.
Proof.
  intros H2 H1 Hs Hd1 Hn.
  assert (0 <= d2)%Z.
  { destruct (Z_lt_le_dec d2 0); [|assumption].
    rewrite (Z.pow_neg_r 2 d2) in H2 by assumption. lia. }
  apply Z.div_le_lower_bound; [lia|].
  assert (0 < 2 ^ (d1 - 1 + s - d2))%Z by (apply Z.pow_pos_nonneg; lia).
  assert (0 < 2 ^ s)%Z by (apply Z.pow_pos_nonneg; lia).
  apply Z.le_trans with (2 ^ d2 * 2 ^ (d1 - 1 + s - d2))%Z.
  - apply Z.mul_le_mono_nonneg_r; lia.
  - rewrite <- Z.pow_add_r by lia.
    replace (d2 + (d1 - 1 + s - d2))%Z with ((d1 - 1) + s)%Z by lia.
    rewrite Z.pow_add_r by lia.
    apply Z.mul_le_mono_nonneg_r; lia.
Qed.

Lemma div_core_ok mx ex md ed :
  let '(mz, ez, lz) := SFdiv_core_binary prec emax (Zpos mx) ex (Zpos md) ed in
  input_ok (IZR (Zpos mx) * bpow ex / (IZR (Zpos md) * bpow ed)) mz ez lz.
Proof.
  unfold SFdiv_core_binary. rewrite fexp_eq.
  set (d1 := Zdigits2 (Zpos mx)). set (d2 := Zdigits2 (Zpos md)).
  set (e' := Z.min (fexp64 (d1 + ex - (d2 + ed))) (ex - ed)).
  set (s := (ex - ed - e')%Z).
  assert (Hs : (0 <= s)%Z) by (unfold s, e'; lia).
  set (m' := match s with
             | 0%Z => Zpos mx
             | Zpos _ => Z.shiftl (Zpos mx) s
             | Zneg _ => 0%Z
             end).
  assert (Hm' : m' = (Zpos mx * 2 ^ s)%Z).
  { unfold m'. destruct s as [|p|p]; [simpl; lia| |lia].
    apply Z.shiftl_mul_pow2. lia. }
  pose proof (Z_div_mod m' (Zpos md) ltac:(lia)) as Hdm.
  pose proof (Z.div_eucl_eq m' (Zpos md) ltac:(lia)) as Hq.
  assert (Hdiv : fst (Z.div_eucl m' (Zpos md)) = (m' / Zpos md)%Z) by reflexivity.
  destruct (Z.div_eucl m' (Zpos md)) as [q r]. simpl in Hdiv.
  destruct Hdm as [Hm'eq Hr].
  assert (Hq0 : (0 <= q)%Z).
  { rewrite Hdiv. apply Z.div_pos; [|lia]. rewrite Hm'.
    assert (0 < 2 ^ s)%Z by (apply Z.pow_pos_nonneg; lia). lia. }
  split; [exact Hq0|]. split.
  - (* the place of the quotient *)
    assert (E : IZR (Zpos mx) * bpow ex / (IZR (Zpos md) * bpow ed) * bpow (- e')
                = IZR q + IZR r / IZR (Zpos md)).
    { assert (Pd : 0 < IZR (Zpos md)) by (apply IZR_lt; lia).
      pose proof (bpow_pos ed) as Ped.
      assert (IZR m' = IZR (Zpos md) * IZR q + IZR r)
        by (rewrite Hm'eq, plus_IZR, mult_IZR; reflexivity).
      assert (Hb : bpow ex * bpow (- e') = IZR (2 ^ s) * bpow ed).
      { rewrite <- bpow_add, bpow_mul_IZR by assumption. f_equal. unfold s. lia. }
      rewrite Hm', mult_IZR in H.
      transitivity (IZR (Zpos mx) * (bpow ex * bpow (- e')) / (IZR (Zpos md) * bpow ed));
        [field; lra|].
      rewrite Hb.
      transitivity ((IZR (Zpos mx) * IZR (2 ^ s)) / IZR (Zpos md)); [field; lra|].
      rewrite H. field. lra. }
    unfold loc_at. rewrite E. apply new_location_located; lia.
  - (* enough digits *)
    unfold fine.
    destruct (Z_le_gt_dec e' (-1074)) as [Hle|Hgt]; [unfold fexp64; lia|].
    assert (Ht : (e' <= d1 + ex - (d2 + ed) - 53)%Z) by (unfold e', fexp64 in *; lia).
    pose proof (Zdigits2_bounds (Zpos mx) ltac:(lia)) as [L1 _].
    pose proof (Zdigits2_bounds (Zpos md) ltac:(lia)) as [_ U2].
    fold d1 in L1. fold d2 in U2.
    assert (Hd1 : (0 < d1)%Z) by (apply Zdigits2_pos; lia).
    assert (Hn : (52 <= d1 - 1 + s - d2)%Z) by (unfold s; lia).
    pose proof (div_lower (Zpos mx) (Zpos md) d1 d2 s ltac:(lia) L1 Hs Hd1 ltac:(lia)) as Hlow.
    rewrite <- Hm', <- Hdiv in Hlow.
    apply Zdigits2_ge in Hlow; [|lia].
    unfold fexp64. lia.
Qed.

(** [x / d] rounds the quotient of the values. *)
Lemma SFdiv_RND x d :
  nonneg x -> valid x -> (exists md ed, d = S754_finite false md ed) ->
  RND (option_map (fun v => v / fval d) (val x)) (SFdiv prec emax x d).
Proof.
  intros Nx Vx (md & ed & ->).
  destruct x as [sx|[]| |[] mx ex]; simpl in Nx; try contradiction.
  - simpl. left. split; [|destruct sx; eauto].
    unfold Rdiv. apply Rmult_0_l.
  - reflexivity.
  - simpl option_map. cbn [SFdiv xorb]. right.
    pose proof (div_core_ok mx ex md ed) as H.
    destruct (SFdiv_core_binary prec emax (Zpos mx) ex (Zpos md) ed) as [[mz ez] lz].
    exists mz, ez, lz. split; [exact H|reflexivity].
Qed.

End MulDiv.

(** ** The interpolation is monotone on a band *)

Section PrimMono.

Open Scope R_scope.

Local Abbreviation SF := Prim2SF.

Lemma nonneg_le a b : nonneg a -> SFleb a b = true -> nonneg b.
Proof.
  destruct a as [sa|[]| |[] ma ea], b as [sb|[]| |[] mb eb]; simpl;
    try contradiction; try discriminate; auto.
Qed.

Lemma fin_nonnegb_spec x : fin_nonnegb x = true -> fin_nonneg (SF x).
Proof. unfold fin_nonnegb. destruct (SF x) as [s|[]| |[] m e]; simpl; auto; discriminate. Qed.

Lemma fin_posb_spec x : fin_posb x = true -> exists m e, SF x = S754_finite false m e.
Proof. unfold fin_posb. destruct (SF x) as [s|[]| |[] m e]; try discriminate; eauto. Qed.

Lemma fval_fin_pos a : (exists m e, a = S754_finite false m e) -> 0 < fval a.
Proof. intros (m & e & ->). apply fval_pos. Qed.

(** One rounded operation that is monotone on the values is monotone on
    the binary64 values. *)
Lemma op_mono (f : R -> R) a b a' b' :
  (forall u v, 0 <= u -> u <= v -> f u <= f v) ->
  nonneg a -> nonneg b -> valid a -> valid b -> SFleb a b = true ->
  RND (option_map f (val a)) a' -> RND (option_map f (val b)) b' ->
  nonneg a' /\ nonneg b' /\ SFleb a' b' = true.
Proof.
  intros Hf Na Nb Va Vb Hle Ra Rb.
  split; [eapply RND_nonneg; eauto|]. split; [eapply RND_nonneg; eauto|].
  eapply RND_mono; [exact Ra|exact Rb|].
  apply le_ext_map; [exact Hf|now apply val_nonneg|now apply val_le].
Qed.

Lemma SF_valid x : valid (SF x).
Proof. exact (Prim2SF_valid x). Qed.

Variables c k d l : float.
Hypothesis Hc : fin_nonnegb c = true.
Hypothesis Hk : fin_posb k = true.
Hypothesis Hd : fin_posb d = true.
Hypothesis Hl : fin_nonnegb l = true.

Lemma sub_mono x y :
  (c <=? x)%float = true -> (x <=? y)%float = true ->
  nonneg (SF (x - c)) /\ nonneg (SF (y - c)) /\ (x - c <=? y - c)%float = true.
Proof.
  intros Hcx Hxy.
  assert (Hcy : (c <=? y)%float = true) by (eapply leb_trans; eauto).
  rewrite FloatAxioms.leb_spec in *. rewrite !sub_spec.
  pose proof (fin_nonnegb_spec c Hc) as Nc.
  destruct (fin_nonneg_val _ Nc) as [Vc Nc'].
  assert (Nx : nonneg (SF x)) by (eapply nonneg_le; eauto).
  assert (Ny : nonneg (SF y)) by (eapply nonneg_le; eauto).
  apply (op_mono (fun v => v - fval (SF c)) (SF x) (SF y));
    [intros; lra|exact Nx|exact Ny|apply SF_valid|apply SF_valid|exact Hxy| | ].
  - apply SFsub_RND; auto using SF_valid.
    rewrite <- Vc. apply val_le; auto using SF_valid.
  - apply SFsub_RND; auto using SF_valid.
    rewrite <- Vc. apply val_le; auto using SF_valid.
Qed.

Lemma mul_mono x y :
  nonneg (SF x) -> nonneg (SF y) -> (x <=? y)%float = true ->
  nonneg (SF (k * x)) /\ nonneg (SF (k * y)) /\ (k * x <=? k * y)%float = true.
Proof.
  intros Nx Ny Hxy. rewrite FloatAxioms.leb_spec in *. rewrite !mul_spec.
  pose proof (fin_posb_spec k Hk) as Pk.
  pose proof (fval_fin_pos _ Pk) as Vk.
  apply (op_mono (fun v => fval (SF k) * v) (SF x) (SF y));
    [intros; nra|exact Nx|exact Ny|apply SF_valid|apply SF_valid|exact Hxy| | ];
    apply SFmul_RND; auto using SF_valid.
Qed.

Lemma div_mono x y :
  nonneg (SF x) -> nonneg (SF y) -> (x <=? y)%float = true ->
  nonneg (SF (x / d)) /\ nonneg (SF (y / d)) /\ (x / d <=? y / d)%float = true.
Proof.
  intros Nx Ny Hxy. rewrite FloatAxioms.leb_spec in *. rewrite !div_spec.
  pose proof (fin_posb_spec d Hd) as Pd.
  pose proof (fval_fin_pos _ Pd) as Vd.
  apply (op_mono (fun v => v / fval (SF d)) (SF x) (SF y));
    [|exact Nx|exact Ny|apply SF_valid|apply SF_valid|exact Hxy| | ].
  - intros u v Hu Huv. apply Rmult_le_compat_r; [|assumption].
    apply Rlt_le, Rinv_0_lt_compat. assumption.
  - apply SFdiv_RND; auto using SF_valid.
  - apply SFdiv_RND; auto using SF_valid.
Qed.

Lemma add_mono x y :
  nonneg (SF x) -> nonneg (SF y) -> (x <=? y)%float = true ->
  nonneg (SF (l + x)) /\ nonneg (SF (l + y)) /\ (l + x <=? l + y)%float = true.
Proof.
  intros Nx Ny Hxy. rewrite FloatAxioms.leb_spec in *. rewrite !add_spec.
  pose proof (fin_nonnegb_spec l Hl) as Nl.
  apply (op_mono (fun v => fval (SF l) + v) (SF x) (SF y));
    [intros; lra|exact Nx|exact Ny|apply SF_valid|apply SF_valid|exact Hxy| | ];
    apply SFadd_RND; auto using SF_valid.
Qed.

(** The whole expression of the interpolation. *)
Lemma expression_mono x y :
  (c <=? x)%float = true -> (x <=? y)%float = true ->
  (l + k * (x - c) / d <=? l + k * (y - c) / d)%float = true.
Proof.
  intros Hcx Hxy.
  destruct (sub_mono x y Hcx Hxy) as (N1 & N1' & H1).
  destruct (mul_mono _ _ N1 N1' H1) as (N2 & N2' & H2).
  destruct (div_mono _ _ N2 N2' H2) as (N3 & N3' & H3).
  destruct (add_mono _ _ N3 N3' H3) as (_ & _ & H4).
  exact H4.
Qed.

End PrimMono.

(** ** The scan of the bands *)

Section Scan.

Variable C : float.

Lemma for_bands_no_match bands orelse :
  Forall (fun b => in_band C b = false) bands ->
  for_bands C bands orelse = orelse.
Proof.
  induction 1 as [|[[[lc hc] li] hi] rest Hb _ IH]; simpl; [reflexivity|].
  unfold in_band in Hb; simpl in Hb. now rewrite Hb.
Qed.

Lemma for_bands_app pre bands orelse :
  Forall (fun b => in_band C b = false) pre ->
  for_bands C (pre ++ bands) orelse = for_bands C bands orelse.
Proof.
  induction 1 as [|[[[lc hc] li] hi] rest Hb _ IH]; simpl; [reflexivity|].
  unfold in_band in Hb; simpl in Hb. now rewrite Hb.
Qed.

Lemma truediv_nonzero x y : (y =? 0) = false -> truediv x y = Ok (x / y).
Proof. unfold truediv. now intros ->. Qed.

Lemma index_last_app {A : Type} (l : list A) (a : A) : index_last (l ++ [a]) = Ok a.
Proof.
  induction l as [|b l IH]; [reflexivity|].
  simpl. destruct (l ++ [a]) eqn:E; [now destruct l|exact IH].
Qed.

Lemma index_last_cons {A : Type} (b : A) (l : list A) (a : A) :
  index_last l = Ok a -> index_last (b :: l) = Ok a.
Proof. destruct l; [discriminate|auto]. Qed.

Lemma index_last_In {A : Type} (l : list A) (a : A) : index_last l = Ok a -> In a l.
Proof.
  induction l as [|b l IH]; [discriminate|].
  destruct l as [|c l]; simpl.
  - intros [= ->]. now left.
  - intros H. right. now apply IH.
Qed.

(** In an ascending table no band ends above the last one. *)
Lemma ascending_high_last bands last b :
  ascending bands = true -> index_last bands = Ok last -> In b bands ->
  (high_c b <=? high_c last) = true.
Proof.
  revert b. induction bands as [|b0 rest IH]; intros b; [discriminate|].
  destruct rest as [|b1 rest].
  - simpl. intros H [= <-] [<-|[]].
    rewrite !andb_true_iff in H. destruct H as [[H _] _].
    apply leb_refl. eapply leb_eqb_r; eauto.
  - intros H Hl [<-|Hin].
    + change (ascending (b0 :: b1 :: rest))
        with ((low_c b0 <=? high_c b0) && (high_c b0 <? low_c b1)
              && ascending (b1 :: rest)) in H.
      rewrite !andb_true_iff in H. destruct H as [[_ H01] H1].
      assert (H1' := H1). simpl in H1'. rewrite !andb_true_iff in H1'.
      destruct H1' as [[Hb1 _] _].
      apply ltb_leb. eapply ltb_leb_trans; [exact H01|].
      eapply leb_trans; [exact Hb1|]. apply IH; auto. now left.
    + apply IH; auto.
      change (ascending (b0 :: b1 :: rest))
        with ((low_c b0 <=? high_c b0) && (high_c b0 <? low_c b1)
              && ascending (b1 :: rest)) in H.
      rewrite !andb_true_iff in H. tauto.
Qed.

(** In an ascending table every later band starts above the end of an
    earlier one. *)
Lemma ascending_later b rest b' :
  ascending (b :: rest) = true -> In b' rest -> (high_c b <? low_c b') = true.
Proof.
  revert b. induction rest as [|b1 rest IH]; intros b H Hin; [destruct Hin|].
  change (ascending (b :: b1 :: rest))
    with ((low_c b <=? high_c b) && (high_c b <? low_c b1)
          && ascending (b1 :: rest)) in H.
  rewrite !andb_true_iff in H. destruct H as [[_ H01] H1].
  destruct Hin as [<-|Hin]; [exact H01|].
  assert (H1' := H1). simpl in H1'. rewrite !andb_true_iff in H1'.
  destruct H1' as [[Hb1 _] _].
  eapply ltb_leb_trans; [exact H01|].
  eapply leb_trans; [exact Hb1|]. apply ltb_leb. now apply IH.
Qed.

Lemma ascending_tail b rest : ascending (b :: rest) = true -> ascending rest = true.
Proof. simpl. rewrite !andb_true_iff. tauto. Qed.

Lemma ascending_app_r pre bands : ascending (pre ++ bands) = true -> ascending bands = true.
Proof.
  induction pre as [|b pre IH]; [auto|].
  intros H. apply IH. eapply ascending_tail. exact H.
Qed.

Lemma ascending_head b rest : ascending (b :: rest) = true -> (low_c b <=? high_c b) = true.
Proof. simpl. rewrite !andb_true_iff. tauto. Qed.

(** Above the end of the last band of an ascending table no band holds
    [C]. *)
Lemma above_top_no_match bands last :
  ascending bands = true -> index_last bands = Ok last ->
  (high_c last <? C) = true ->
  Forall (fun b => in_band C b = false) bands.
Proof.
  intros Ha Hl Hc. apply Forall_forall. intros b Hb.
  unfold in_band. apply andb_false_iff. right.
  apply ltb_not_leb. eapply leb_ltb_trans; [|exact Hc].
  eapply ascending_high_last; eauto.
Qed.

Lemma above_top_500 bands last :
  ascending bands = true -> index_last bands = Ok last ->
  (high_c last <? C) = true ->
  calculate_sub_aqi C bands = Ok 500.
Proof.
  intros Ha Hl Hc. unfold calculate_sub_aqi.
  rewrite for_bands_no_match by (eapply above_top_no_match; eauto).
  rewrite Hl. simpl. now rewrite Hc.
Qed.

End Scan.

Lemma tables_ascending : Forall (fun t => ascending t = true) tables.
Proof. repeat constructor. Qed.

Lemma tables_ascending_In t : In t tables -> ascending t = true.
Proof. exact (proj1 (Forall_forall _ _) tables_ascending t). Qed.

(** ** Claims on the interpolation and on the tables *)

(** C1: [calculate_sub_aqi] scans the bands in table order; the first band
    [(low_c, high_c, low_i, high_i)] with [low_c <= C <= high_c] decides
    the result, whatever the bands after it are, and the result is
    [low_i + (high_i - low_i) * (C - low_c) / (high_c - low_c)] as Python
    evaluates it: the value of that expression when the divisor is not
    zero (the [ZeroDivisionError] of its division otherwise). *)
Theorem calculate_sub_aqi_first_match :
  forall (C : float) (pre post : list band) (lc hc li hi : float),
    Forall (fun b => in_band C b = false) pre ->
    in_band C (lc, hc, li, hi) = true ->
    calculate_sub_aqi C (pre ++ (lc, hc, li, hi) :: post)
    = (q <- truediv ((hi - li) * (C - lc)) (hc - lc) ;; Ok (li + q))
    /\ ((hc - lc =? 0) = false ->
        calculate_sub_aqi C (pre ++ (lc, hc, li, hi) :: post)
        = Ok (li + (hi - li) * (C - lc) / (hc - lc))).
Proof.
  intros C pre post lc hc li hi Hpre Hin.
  assert (E : calculate_sub_aqi C (pre ++ (lc, hc, li, hi) :: post)
              = (q <- truediv ((hi - li) * (C - lc)) (hc - lc) ;; Ok (li + q))).
  { unfold calculate_sub_aqi. rewrite for_bands_app by exact Hpre.
    simpl. unfold in_band in Hin; simpl in Hin. now rewrite Hin. }
  split; [exact E|].
  intros Hz. rewrite E, truediv_nonzero by exact Hz. reflexivity.
Qed.

Lemma calculate_sub_aqi_first_match_witness :
  calculate_sub_aqi 25 ([(0, 12, 0, 50)] ++ (12.1, 35.4, 51, 100) :: (20, 30, 7, 9) :: [])
  = (q <- truediv ((100 - 51) * (25 - 12.1)) (35.4 - 12.1) ;; Ok (51 + q))
  /\ ((35.4 - 12.1 =? 0) = false ->
      calculate_sub_aqi 25 ([(0, 12, 0, 50)] ++ (12.1, 35.4, 51, 100) :: (20, 30, 7, 9) :: [])
      = Ok (51 + (100 - 51) * (25 - 12.1) / (35.4 - 12.1))).
Proof.
  apply (calculate_sub_aqi_first_match 25 [(0, 12, 0, 50)] [(20, 30, 7, 9)]).
  - repeat constructor.
  - reflexivity.
Defined.

(** C2: when no band holds [C], [calculate_sub_aqi] returns exactly 500 if
    [C] is strictly above the upper bound of the last band and exactly 0
    otherwise; and in each of the five tables of [get_aqi] a concentration
    strictly above the upper bound of the last band is held by no band, so
    that its sub-index is exactly 500. *)
Theorem calculate_sub_aqi_no_match :
  forall (C : float) (bands : list band) (last : band),
    index_last bands = Ok last ->
    (Forall (fun b => in_band C b = false) bands ->
     calculate_sub_aqi C bands = Ok (if high_c last <? C then 500 else 0))
    /\ (In bands tables -> (high_c last <? C) = true ->
        Forall (fun b => in_band C b = false) bands
        /\ calculate_sub_aqi C bands = Ok 500).
Proof.
  intros C bands last Hl. split.
  - intros Hno. unfold calculate_sub_aqi.
    rewrite for_bands_no_match by exact Hno. now rewrite Hl.
  - intros Hin Hc. split.
    + eapply above_top_no_match; eauto using tables_ascending_In.
    + eapply above_top_500; eauto using tables_ascending_In.
Qed.

Lemma calculate_sub_aqi_no_match_witness :
  (Forall (fun b => in_band 600 b = false) bp_pm25 ->
   calculate_sub_aqi 600 bp_pm25
   = Ok (if high_c (250.5, 500.4, 301, 500) <? 600 then 500 else 0))
  /\ (In bp_pm25 tables -> (high_c (250.5, 500.4, 301, 500) <? 600) = true ->
      Forall (fun b => in_band 600 b = false) bp_pm25
      /\ calculate_sub_aqi 600 bp_pm25 = Ok 500).
Proof.
  apply (calculate_sub_aqi_no_match 600 bp_pm25 (250.5, 500.4, 301, 500)).
  reflexivity.
Defined.

(** C3: each of the five tables of [get_aqi] has exactly 6 bands, their
    index ranges are [0,50], [51,100], [101,150], [151,200], [201,300] and
    [301,500], and their concentration boundaries are, bit for bit, the
    binary64 values of the decimals that the table of the specification
    lists for PM2.5, PM10, CO, O3 and NO2, in this order. *)
Theorem tables_as_specified :
  Forall (fun t => List.length t = 6%nat) tables
  /\ Forall (fun t => map (fun b => (low_i b, high_i b)) t
                      = map (fun r => (of_int (fst r), of_int (snd r))) spec_index_ranges)
       tables
  /\ map (map (fun b => (low_c b, high_c b))) tables
     = map (map (fun r => (of_tenths (fst r), of_tenths (snd r)))) spec_boundaries.
Proof.
  split; [|split].
  - repeat constructor.
  - repeat constructor.
  - vm_compute. reflexivity.
Qed.

(** C5: the category is decided by the ladder [<= 50], [<= 100], [<= 150],
    [<= 200], [<= 300] taken in this order, with the colours of the code,
    and everything above 300 is Hazardous whatever its size; so 50 is
    Good, 51 and 100 Moderate, 101 Unhealthy for Sensitive Groups, 300
    Very Unhealthy and 301 Hazardous. *)
Theorem category_ladder :
  (forall aqi : Z,
      ((aqi <= 50)%Z -> category aqi = ("Good", "#00e400"))
      /\ ((50 < aqi <= 100)%Z -> category aqi = ("Moderate", "#ffff00"))
      /\ ((100 < aqi <= 150)%Z ->
          category aqi = ("Unhealthy for Sensitive Groups", "#ff7e00"))
      /\ ((150 < aqi <= 200)%Z -> category aqi = ("Unhealthy", "#ff0000"))
      /\ ((200 < aqi <= 300)%Z -> category aqi = ("Very Unhealthy", "#8f3f97"))
      /\ ((300 < aqi)%Z -> category aqi = ("Hazardous", "#7e0023")))
  /\ fst (category 50) = "Good"
  /\ fst (category 51) = "Moderate"
  /\ fst (category 100) = "Moderate"
  /\ fst (category 101) = "Unhealthy for Sensitive Groups"
  /\ fst (category 300) = "Very Unhealthy"
  /\ fst (category 301) = "Hazardous".
Proof.
  split; [|repeat split].
  intros aqi. unfold category.
  repeat match goal with
         | |- context [(?a <=? ?b)%Z] => destruct (Z.leb_spec a b)
         end;
    repeat split; intros; try reflexivity; lia.
Qed.

(** C6: with no reading at all [get_aqi] raises nothing and returns the
    index 0 with the dominant pollutant "No data". *)
Theorem get_aqi_no_data : get_aqi None None None None None = Ok (0%Z, "No data").
Proof. reflexivity. Qed.

(** ** The sub-index on the tables of [get_aqi] *)

Section Bands.

Lemma fin_posb_nonzero d : fin_posb d = true -> (d =? 0) = false.
Proof.
  intros H. destruct (fin_posb_spec d H) as (m & e & E).
  rewrite FloatAxioms.eqb_spec, E. reflexivity.
Qed.

Lemma good_regular b :
  good b = true ->
  fin_nonnegb (low_c b) = true /\ fin_posb (high_i b - low_i b) = true
  /\ fin_posb (high_c b - low_c b) = true /\ fin_nonnegb (low_i b) = true
  /\ (interpolate (low_c b) b =? low_i b) = true
  /\ (interpolate (high_c b) b =? high_i b) = true
  /\ (0 <=? low_i b) = true /\ (high_i b <=? 500) = true.
Proof.
  unfold good, regular. rewrite !andb_true_iff. tauto.
Qed.

(** On a good band the loop returns the interpolated value, which lies
    between the two indices of the band. *)
Lemma good_band_value C b :
  good b = true -> in_band C b = true ->
  (forall rest orelse, for_bands C (b :: rest) orelse = Ok (interpolate C b))
  /\ (low_i b <=? interpolate C b) = true
  /\ (interpolate C b <=? high_i b) = true.
Proof.
  intros Hg Hin.
  destruct (good_regular b Hg) as (Hc & Hk & Hd & Hl & Elo & Ehi & _).
  unfold in_band in Hin. apply andb_true_iff in Hin. destruct Hin as [H1 H2].
  split; [|split].
  - intros rest orelse. destruct b as [[[lc hc] li] hi]. simpl in *.
    rewrite H1, H2. simpl. rewrite truediv_nonzero by now apply fin_posb_nonzero.
    reflexivity.
  - rewrite eqb_leb in Elo. apply andb_true_iff in Elo. destruct Elo as [_ Elo].
    eapply leb_trans; [exact Elo|].
    apply (expression_mono (low_c b) _ _ (low_i b) Hc Hk Hd Hl); [|exact H1].
    apply leb_refl. eapply leb_eqb_l; eauto.
  - rewrite eqb_leb in Ehi. apply andb_true_iff in Ehi. destruct Ehi as [Ehi _].
    eapply leb_trans; [|exact Ehi].
    apply (expression_mono (low_c b) _ _ (low_i b) Hc Hk Hd Hl); assumption.
Qed.

(** Within a good band the interpolated value does not decrease when the
    concentration increases. *)
Lemma good_band_mono C1 C2 b :
  good b = true -> (low_c b <=? C1) = true -> (C1 <=? C2) = true ->
  (interpolate C1 b <=? interpolate C2 b) = true.
Proof.
  intros Hg H1 H2.
  destruct (good_regular b Hg) as (Hc & Hk & Hd & Hl & _).
  apply (expression_mono (low_c b) _ _ (low_i b) Hc Hk Hd Hl); assumption.
Qed.

Lemma for_bands_range C bands orelse :
  Forall (fun b => good b = true) bands ->
  for_bands C bands orelse = orelse
  \/ exists v, for_bands C bands orelse = Ok v
               /\ (0 <=? v) = true /\ (v <=? 500) = true.
Proof.
  induction 1 as [|b rest Hg _ IH]; [now left|].
  destruct (in_band C b) eqn:Hin.
  - right. destruct (good_band_value C b Hg Hin) as (Hv & Hlo & Hhi).
    destruct (good_regular b Hg) as (_ & _ & _ & _ & _ & _ & H0 & H500).
    exists (interpolate C b). rewrite Hv.
    split; [reflexivity|]. split; eapply leb_trans; eauto.
  - replace (for_bands C (b :: rest) orelse) with (for_bands C rest orelse); [exact IH|].
    destruct b as [[[lc hc] li] hi]. unfold in_band in Hin. simpl in *.
    now rewrite Hin.
Qed.

Lemma tables_good : Forall (Forall (fun b => good b = true)) tables.
Proof. repeat constructor. Qed.

Lemma tables_good_In t : In t tables -> Forall (fun b => good b = true) t.
Proof. exact (proj1 (Forall_forall _ _) tables_good t). Qed.

Lemma tables_last t : In t tables -> exists last, index_last t = Ok last.
Proof.
  intros H. simpl in H.
  repeat (destruct H as [<-|H]; [eexists; reflexivity|]). destruct H.
Qed.

(** On the five tables the sub-index is defined for every concentration
    (a NaN and the infinities included) and lies in [0, 500]. *)
Lemma calculate_sub_aqi_range t C :
  In t tables ->
  exists v, calculate_sub_aqi C t = Ok v /\ (0 <=? v) = true /\ (v <=? 500) = true.
Proof.
  intros Hin. unfold calculate_sub_aqi.
  destruct (for_bands_range C t
              (last <- index_last t ;; Ok (if high_c last <? C then 500 else 0))
              (tables_good_In t Hin)) as [E|H]; [|exact H].
  rewrite E. destruct (tables_last t Hin) as [last ->]. simpl.
  destruct (high_c last <? C); eexists; repeat split; reflexivity.
Qed.

End Bands.

(** ** [max], the first maximum, [round] *)

Section Aggregation.

Lemma max_step_bounds m item :
  (m =? m) = true -> (item =? item) = true ->
  (m <=? max_step m item) = true /\ (item <=? max_step m item) = true
  /\ (max_step m item =? max_step m item) = true
  /\ (max_step m item = m \/ max_step m item = item).
Proof.
  intros Hm Hi. unfold max_step. destruct (m <? item) eqn:E.
  - repeat split; auto using ltb_leb, leb_refl.
  - repeat split; auto using leb_refl.
    destruct (item <=? m) eqn:E'; [reflexivity|].
    apply leb_total in E'; auto. congruence.
Qed.

Lemma fold_max_spec t : forall x,
  Forall (fun w => (w =? w) = true) (x :: t) ->
  let v := fold_left max_step t x in
  In v (x :: t) /\ Forall (fun w => (w <=? v) = true) (x :: t).
Proof.
  induction t as [|a t IH]; intros x Hn; simpl.
  - inversion_clear Hn as [|? ? Hx _]. split; [now left|].
    constructor; [now apply leb_refl|constructor].
  - inversion_clear Hn as [|? ? Hx Hn']. inversion_clear Hn' as [|? ? Ha Ht].
    destruct (max_step_bounds x a Hx Ha) as (Bx & Ba & Bn & Bc).
    destruct (IH (max_step x a)) as [Hin Hall]; [now constructor|].
    inversion_clear Hall as [|? ? Hm Hall'].
    split.
    + destruct Hin as [E|Hin]; [|now right; right].
      destruct Bc as [E'|E'].
      * left. transitivity (max_step x a); [symmetry; exact E'|exact E].
      * right. left. transitivity (max_step x a); [symmetry; exact E'|exact E].
    + constructor; [eapply leb_trans; eauto|].
      constructor; [eapply leb_trans; eauto|assumption].
Qed.

Lemma max_spec x t :
  Forall (fun w => (w =? w) = true) (x :: t) ->
  exists v, Py.max (x :: t) = Ok v /\ In v (x :: t)
            /\ Forall (fun w => (w <=? v) = true) (x :: t).
Proof.
  intros H. exists (fold_left max_step t x). split; [reflexivity|].
  now apply fold_max_spec.
Qed.

(** The first pair of a list whose value equals [v]. *)
Lemma first_equal (l : list (string * float)) v :
  In v (map snd l) -> (v =? v) = true ->
  exists pre p w post,
    l = pre ++ (p, w) :: post
    /\ (w =? v) = true
    /\ Forall (fun pv => (snd pv =? v) = false) pre
    /\ index_0 (map fst (filter (fun pv => snd pv =? v) l)) = Ok p.
Proof.
  intros Hin Hv. induction l as [|[p w] l IH]; [destruct Hin|].
  destruct (w =? v) eqn:E.
  - exists [], p, w, l. simpl. rewrite E. repeat split; auto.
  - destruct IH as (pre & p' & w' & post & -> & Hw & Hpre & Hidx).
    { destruct Hin as [<-|Hin]; [simpl in *; congruence|exact Hin]. }
    exists ((p, w) :: pre), p', w', post. simpl. rewrite E.
    repeat split; auto.
Qed.

Lemma in_range_finite v :
  (0 <=? v) = true -> (v <=? 500) = true ->
  (exists s, Prim2SF v = S754_zero s) \/ (exists m e, Prim2SF v = S754_finite false m e).
Proof.
  rewrite !FloatAxioms.leb_spec.
  change (Prim2SF 0) with (S754_zero false).
  destruct (Prim2SF v) as [s|[]| |[] m e]; try discriminate; eauto.
Qed.

Lemma round_in_range v :
  (0 <=? v) = true -> (v <=? 500) = true -> exists r, Py.round v = Ok r.
Proof.
  intros H0 H1. unfold Py.round.
  destruct (in_range_finite v H0 H1) as [[s ->]|(m & e & ->)]; eauto.
Qed.

End Aggregation.

(** ** What [get_aqi] computes *)

Section GetAqi.

Lemma append_reading_spec name r bp l :
  In bp tables ->
  exists o,
    append_reading name r bp l = Ok (l ++ o)
    /\ sub_indices_of (supplied [(name, r, bp)]) o
    /\ in_range o.
Proof.
  intros Hbp. destruct r as [c|]; simpl.
  - destruct (calculate_sub_aqi_range bp c Hbp) as (v & E & H0 & H1).
    exists [(name, v)]. rewrite E. simpl.
    repeat split; repeat constructor; auto.
  - exists []. rewrite app_nil_r. repeat split; constructor.
Qed.

Lemma build_aqi_list_spec pm25 pm10 co o3 no2 :
  exists aqi_list,
    build_aqi_list pm25 pm10 co o3 no2 = Ok aqi_list
    /\ sub_indices_of (supplied (inputs pm25 pm10 co o3 no2)) aqi_list
    /\ in_range aqi_list.
Proof.
  unfold build_aqi_list.
  destruct (append_reading_spec "PM2.5" pm25 bp_pm25 [])
    as (o1 & E1 & S1 & R1); [simpl; tauto|].
  simpl app in E1. rewrite E1. cbn [Py.bind].
  destruct (append_reading_spec "PM10" pm10 bp_pm10 o1)
    as (o2 & E2 & S2 & R2); [simpl; tauto|].
  rewrite E2. cbn [Py.bind].
  destruct (append_reading_spec "CO" co bp_co (o1 ++ o2))
    as (o3' & E3 & S3 & R3); [simpl; tauto|].
  rewrite E3. cbn [Py.bind].
  destruct (append_reading_spec "O₃" o3 bp_o3 ((o1 ++ o2) ++ o3'))
    as (o4 & E4 & S4 & R4); [simpl; tauto|].
  rewrite E4. cbn [Py.bind].
  destruct (append_reading_spec "NO₂" no2 bp_no2 (((o1 ++ o2) ++ o3') ++ o4))
    as (o5 & E5 & S5 & R5); [simpl; tauto|].
  rewrite E5.
  eexists. split; [reflexivity|]. split.
  - replace (supplied (inputs pm25 pm10 co o3 no2))
      with ((((supplied [("PM2.5", pm25, bp_pm25)]
               ++ supplied [("PM10", pm10, bp_pm10)])
              ++ supplied [("CO", co, bp_co)])
             ++ supplied [("O₃", o3, bp_o3)])
            ++ supplied [("NO₂", no2, bp_no2)])
      by (destruct pm25, pm10, co, o3, no2; reflexivity).
    unfold sub_indices_of in *.
    apply Forall2_app; [|exact S5].
    apply Forall2_app; [|exact S4].
    apply Forall2_app; [|exact S3].
    apply Forall2_app; [exact S1|exact S2].
  - unfold in_range in *.
    apply Forall_app; split; [|exact R5].
    apply Forall_app; split; [|exact R4].
    apply Forall_app; split; [|exact R3].
    apply Forall_app; split; [exact R1|exact R2].
Qed.

Lemma sub_indices_of_nil ins : sub_indices_of ins [] -> ins = [].
Proof. inversion 1. reflexivity. Qed.

(** With one reading at least, [get_aqi] raises nothing; it returns the
    rounded maximum of the unrounded sub-indices and the first name that
    reaches this maximum. *)
Lemma get_aqi_spec pm25 pm10 co o3 no2 :
  supplied (inputs pm25 pm10 co o3 no2) <> [] ->
  exists aqi_list overall r p,
    build_aqi_list pm25 pm10 co o3 no2 = Ok aqi_list
    /\ sub_indices_of (supplied (inputs pm25 pm10 co o3 no2)) aqi_list
    /\ in_range aqi_list
    /\ Py.max (map snd aqi_list) = Ok overall
    /\ is_maximum overall (map snd aqi_list)
    /\ first_reaching overall aqi_list p
    /\ Py.round overall = Ok r
    /\ get_aqi pm25 pm10 co o3 no2 = Ok (r, p).
Proof.
  intros Hs.
  destruct (build_aqi_list_spec pm25 pm10 co o3 no2) as (aqi_list & E & HS & HR).
  destruct aqi_list as [|[p0 v0] rest].
  { apply sub_indices_of_nil in HS. contradiction. }
  set (aqi_list := (p0, v0) :: rest) in *.
  assert (Hrange : Forall (fun w => (0 <=? w) = true /\ (w <=? 500) = true)
                     (map snd aqi_list)).
  { apply Forall_map. exact HR. }
  assert (Hn : Forall (fun w => (w =? w) = true) (v0 :: map snd rest)).
  { change (v0 :: map snd rest) with (map snd aqi_list).
    eapply Forall_impl; [|exact Hrange]. intros w [H0 _]. eapply leb_eqb_r; eauto. }
  destruct (max_spec v0 (map snd rest) Hn) as (overall & Emax & Hin & Hall).
  change (v0 :: map snd rest) with (map snd aqi_list) in *.
  assert (Ho : (0 <=? overall) = true /\ (overall <=? 500) = true).
  { exact (proj1 (Forall_forall _ _) Hrange overall Hin). }
  destruct Ho as [Ho0 Ho1].
  destruct (first_equal aqi_list overall Hin ltac:(eapply leb_eqb_r; eauto))
    as (pre & p & w & post & El & Hw & Hpre & Hidx).
  destruct (round_in_range overall Ho0 Ho1) as [r Er].
  exists aqi_list, overall, r, p.
  repeat split; auto.
  - exists pre, w, post. auto.
  - unfold get_aqi. rewrite E. cbn [Py.bind]. unfold aggregate, aqi_list.
    fold aqi_list. rewrite Emax. cbn [Py.bind].
    rewrite Hidx. cbn [Py.bind]. rewrite Er. reflexivity.
Qed.

End GetAqi.

(** ** Gaps between the bands, and the band that holds a concentration *)

Section Gaps.

Lemma ascending_earlier pre b post b' :
  ascending (pre ++ b :: post) = true -> In b' pre ->
  (high_c b' <? low_c b) = true.
Proof.
  induction pre as [|b0 pre IH]; intros Ha Hin; [destruct Hin|].
  destruct Hin as [<-|Hin].
  - apply (ascending_later b0 (pre ++ b :: post)); [exact Ha|].
    apply in_or_app. right. now left.
  - apply IH; [|exact Hin]. eapply ascending_tail. exact Ha.
Qed.

Lemma ascending_low_high bands b :
  ascending bands = true -> In b bands -> (low_c b <=? high_c b) = true.
Proof.
  induction bands as [|b0 rest IH]; intros Ha Hin; [destruct Hin|].
  destruct Hin as [<-|Hin]; [now apply (ascending_head b0 rest)|].
  apply IH; [now apply (ascending_tail b0)|exact Hin].
Qed.

(** The bands before the one that holds [C] do not hold it. *)
Lemma before_no_match C pre b post :
  ascending (pre ++ b :: post) = true -> (low_c b <=? C) = true ->
  Forall (fun b' => in_band C b' = false) pre.
Proof.
  intros Ha Hb. apply Forall_forall. intros b' Hin.
  unfold in_band. apply andb_false_iff. right.
  apply ltb_not_leb. eapply ltb_leb_trans; [|exact Hb].
  eapply ascending_earlier; eauto.
Qed.

Lemma calculate_sub_aqi_in_band C pre b post :
  ascending (pre ++ b :: post) = true -> good b = true -> in_band C b = true ->
  calculate_sub_aqi C (pre ++ b :: post) = Ok (interpolate C b).
Proof.
  intros Ha Hg Hin. unfold calculate_sub_aqi.
  rewrite for_bands_app.
  - now apply good_band_value.
  - eapply before_no_match; [exact Ha|].
    unfold in_band in Hin. apply andb_true_iff in Hin. tauto.
Qed.

(** Strictly between two consecutive bands no band holds [C], and [C] is
    not above the last band. *)
Lemma gap_no_match C pre b1 b2 post :
  ascending (pre ++ b1 :: b2 :: post) = true ->
  (high_c b1 <? C) = true -> (C <? low_c b2) = true ->
  Forall (fun b => in_band C b = false) (pre ++ b1 :: b2 :: post)
  /\ calculate_sub_aqi C (pre ++ b1 :: b2 :: post) = Ok 0.
Proof.
  intros Ha H1 H2.
  assert (Ha2 : ascending (b2 :: post) = true).
  { apply (ascending_app_r (pre ++ [b1])). now rewrite <- app_assoc. }
  assert (Hlo : forall b, In b (b2 :: post) -> (C <? low_c b) = true).
  { intros b [<-|Hin]; [exact H2|].
    eapply ltb_leb_trans; [exact H2|]. apply ltb_leb.
    eapply leb_ltb_trans; [eapply ascending_head; exact Ha2|].
    eapply ascending_later; eauto. }
  assert (Hno : Forall (fun b => in_band C b = false) (pre ++ b1 :: b2 :: post)).
  { apply Forall_forall. intros b Hin. unfold in_band. apply andb_false_iff.
    apply in_app_or in Hin. destruct Hin as [Hin|[<-|Hin]].
    - right. apply ltb_not_leb.
      eapply ltb_leb_trans; [eapply ascending_earlier; eauto|].
      eapply leb_trans; [|apply ltb_leb; exact H1].
      eapply ascending_low_high; [exact Ha|].
      apply in_or_app. right. now left.
    - right. now apply ltb_not_leb.
    - left. apply ltb_not_leb. now apply Hlo. }
  split; [exact Hno|].
  unfold calculate_sub_aqi. rewrite for_bands_no_match by exact Hno.
  destruct (index_last (b2 :: post)) as [last|] eqn:El.
  - assert (El' : index_last (pre ++ b1 :: b2 :: post) = Ok last).
    { clear -El. induction pre as [|b0 pre IH]; simpl app.
      - now apply index_last_cons.
      - now apply index_last_cons. }
    rewrite El'. simpl.
    assert (Hin : In last (b2 :: post)) by now apply index_last_In.
    assert ((high_c last <? C) = false).
    { apply leb_not_ltb. apply ltb_leb.
      eapply ltb_leb_trans; [apply Hlo; exact Hin|].
      eapply ascending_low_high; eauto. }
    now rewrite H.
  - destruct post as [|b3 post]; [discriminate|].
    exfalso. clear -El. revert b2 b3 El.
    induction post as [|b4 post IH]; intros b2 b3 El; [discriminate|].
    exact (IH b3 b4 El).
Qed.

Lemma tables_high_end :
  Forall (fun t => map (fun b => calculate_sub_aqi (high_c b) t) t
                   = map (fun b => Ok (high_i b)) t) tables.
Proof. repeat constructor. Qed.

Lemma tables_high_positive :
  Forall (Forall (fun b => (0 <? high_i b) = true)) tables.
Proof. repeat constructor. Qed.

End Gaps.

(** ** [round] gives a nearest integer *)

Section Round.

Open Scope R_scope.

Lemma round_half_even_nearest m e :
  (0 < m)%Z ->
  Rabs (IZR (round_half_even m e) - IZR m * bpow e) <= / 2
  /\ (Rabs (IZR (round_half_even m e) - IZR m * bpow e) = / 2 ->
      Z.even (round_half_even m e) = true).
Proof.
  intros Hm. unfold round_half_even.
  destruct (Z.leb_spec 0 e) as [He|He].
  - rewrite mult_IZR, <- bpow_IZR by assumption.
    replace (IZR m * bpow e - IZR m * bpow e) with 0 by ring.
    rewrite Rabs_R0. split; [lra|]. intros; lra.
  - set (d := (2 ^ (- e))%Z).
    assert (Hd : (0 < d)%Z) by (apply Z.pow_pos_nonneg; lia).
    pose proof (Z.div_mod m d ltac:(lia)) as Hdm.
    pose proof (Z.mod_pos_bound m d Hd) as Hr.
    set (q := (m / d)%Z) in *. set (r := (m mod d)%Z) in *.
    assert (Pd : 0 < IZR d) by (apply IZR_lt; lia).
    assert (Eb : bpow e = / IZR d).
    { unfold d. rewrite <- bpow_IZR by lia. rewrite <- bpow_opp. f_equal. lia. }
    assert (Ev : IZR m * bpow e = IZR q + IZR r / IZR d).
    { rewrite Eb, Hdm, plus_IZR, mult_IZR. field. lra. }
    rewrite Ev. set (t := IZR r / IZR d).
    assert (Hr0 : 0 <= IZR r) by (apply IZR_le; lia).
    assert (Hr1 : IZR r < IZR d) by (apply IZR_lt; lia).
    assert (T1 : t < 1) by (apply Rdiv_lt_l; lra).
    assert (T0 : 0 <= t).
    { unfold t, Rdiv. apply Rmult_le_pos; [lra|]. apply Rlt_le, Rinv_0_lt_compat, Pd. }
    destruct (Z.compare_spec (2 * r) d) as [E|L|G].
    + assert (Ht : t = / 2).
      { unfold t. rewrite <- E, mult_IZR. field.
        intros Hz. rewrite <- E, mult_IZR in Pd. lra. }
      destruct (Z.even q) eqn:Eq.
      * replace (IZR q - (IZR q + t)) with (- t) by ring.
        rewrite Rabs_Ropp, Rabs_pos_eq by lra. split; [lra|auto].
      * rewrite plus_IZR.
        replace (IZR q + 1 - (IZR q + t)) with (1 - t) by ring.
        rewrite Rabs_pos_eq by lra. split; [lra|]. intros _.
        change (q + 1)%Z with (Z.succ q). rewrite Z.even_succ, <- Z.negb_even, Eq.
        reflexivity.
    + assert (Ht : t < / 2).
      { apply IZR_lt in L. rewrite mult_IZR in L. apply Rdiv_lt_l; lra. }
      replace (IZR q - (IZR q + t)) with (- t) by ring.
      rewrite Rabs_Ropp, Rabs_pos_eq by lra. split; [lra|]. intros; lra.
    + assert (Ht : / 2 < t).
      { apply IZR_lt in G. rewrite mult_IZR in G. apply Rdiv_lt_r; lra. }
      rewrite plus_IZR.
      replace (IZR q + 1 - (IZR q + t)) with (1 - t) by ring.
      rewrite Rabs_pos_eq by lra. split; [lra|]. intros; lra.
Qed.

(** On a value that is not negative, [round] returns an integer nearest
    to the value, and the even one of the two when the value lies half
    way between them. *)
Lemma round_nearest v r :
  nonneg (Prim2SF v) -> Py.round v = Ok r ->
  Rabs (IZR r - fval (Prim2SF v)) <= / 2
  /\ (Rabs (IZR r - fval (Prim2SF v)) = / 2 -> Z.even r = true).
Proof.
  unfold Py.round. destruct (Prim2SF v) as [s|[]| |[] m e]; simpl;
    try contradiction; try discriminate; intros _ [= <-].
  - replace (0 - 0) with 0 by ring. rewrite Rabs_R0. split; [lra|]. intros; lra.
  - apply round_half_even_nearest. lia.
Qed.

End Round.

(** ** Claims on the aggregation and on the shape of the sub-index *)

(** C4: with one reading at least, [get_aqi] returns as overall index the
    (rounded) maximum of the sub-indices computed for the supplied
    readings, and as dominant pollutant the first one, in the order PM2.5,
    PM10, CO, O3, NO2, whose sub-index equals that maximum; with one
    reading only, these are the sub-index of that reading and its
    pollutant. *)
Theorem get_aqi_maximum_and_dominant :
  forall pm25 pm10 co o3 no2 : option float,
    supplied (inputs pm25 pm10 co o3 no2) <> [] ->
    exists aqi_list overall r p,
      build_aqi_list pm25 pm10 co o3 no2 = Ok aqi_list
      /\ sub_indices_of (supplied (inputs pm25 pm10 co o3 no2)) aqi_list
      /\ is_maximum overall (map snd aqi_list)
      /\ first_reaching overall aqi_list p
      /\ Py.round overall = Ok r
      /\ get_aqi pm25 pm10 co o3 no2 = Ok (r, p)
      /\ (forall p0 v0, aqi_list = [(p0, v0)] -> overall = v0 /\ p = p0).
Proof.
  intros pm25 pm10 co o3 no2 Hs.
  destruct (get_aqi_spec pm25 pm10 co o3 no2 Hs)
    as (aqi_list & overall & r & p & E & HS & _ & _ & Hmax & Hfirst & Hr & Hg).
  exists aqi_list, overall, r, p. repeat split; try assumption.
  - apply Hmax.
  - apply Hmax.
  - subst aqi_list. destruct Hmax as [[<-|[]] _]. reflexivity.
  - subst aqi_list. destruct Hfirst as (pre & w & post & El & _).
    destruct pre as [|x pre]; [now injection El|].
    destruct pre; discriminate.
Qed.

Lemma get_aqi_maximum_and_dominant_witness :
  exists aqi_list overall r p,
    build_aqi_list (Some 25) (Some 54) (Some 1) (Some 60) (Some 40) = Ok aqi_list
    /\ sub_indices_of
         (supplied (inputs (Some 25) (Some 54) (Some 1) (Some 60) (Some 40))) aqi_list
    /\ is_maximum overall (map snd aqi_list)
    /\ first_reaching overall aqi_list p
    /\ Py.round overall = Ok r
    /\ get_aqi (Some 25) (Some 54) (Some 1) (Some 60) (Some 40) = Ok (r, p)
    /\ (forall p0 v0, aqi_list = [(p0, v0)] -> overall = v0 /\ p = p0).
Proof.
  apply (get_aqi_maximum_and_dominant (Some 25) (Some 54) (Some 1) (Some 60) (Some 40)).
  simpl. discriminate.
Defined.

(** The default readings of the form give the index 78 with PM2.5 as the
    dominant pollutant, in the category Moderate; a PM2.5 of 600 gives
    500, Hazardous. *)
Example get_aqi_defaults :
  get_aqi (Some 25) (Some 54) (Some 1) (Some 60) (Some 40) = Ok (78%Z, "PM2.5")
  /\ fst (category 78) = "Moderate"
  /\ get_aqi (Some 600) None None None None = Ok (500%Z, "PM2.5")
  /\ fst (category 500) = "Hazardous".
Proof. repeat split. Qed.

(** C7, as the code has it: for PM2.5 = 25.0 the sub-index is
    51 + (100-51)*(25.0-12.1)/(35.4-12.1), about 78.1; the lower index of
    the band 12.1-35.4 is 51. *)
Theorem sub_index_pm25_25 :
  calculate_sub_aqi 25 bp_pm25 = Ok (51 + (100 - 51) * (25 - 12.1) / (35.4 - 12.1))
  /\ (78.12 <? 51 + (100 - 51) * (25 - 12.1) / (35.4 - 12.1)) = true
  /\ (51 + (100 - 51) * (25 - 12.1) / (35.4 - 12.1) <? 78.13) = true.
Proof. repeat split. Qed.

(** C7, as stated, fails: the sub-index for PM2.5 = 25.0 is not
    50 + (100-50)*(25.0-12.1)/(35.4-12.1), and it is not about 77.7: it is
    above 78.12 while the stated value is below 77.69. *)
Lemma sub_index_pm25_25_not_as_stated :
  calculate_sub_aqi 25 bp_pm25 <> Ok (50 + (100 - 50) * (25 - 12.1) / (35.4 - 12.1))
  /\ (50 + (100 - 50) * (25 - 12.1) / (35.4 - 12.1) <? 77.69) = true
  /\ (exists v, calculate_sub_aqi 25 bp_pm25 = Ok v /\ (78.12 <? v) = true).
Proof.
  split; [|split].
  - intros H.
    apply (f_equal (fun r => match r with Ok v => v <? 78 | Raise _ => false end)) in H.
    vm_compute in H. discriminate.
  - reflexivity.
  - eexists. split; reflexivity.
Qed.

(** C8, as the code has it: on each of the five tables the sub-index of
    any concentration is at most 500, and the sub-index of a concentration
    above the top of the highest band is exactly 500. *)
Theorem sub_index_at_most_500 :
  forall (t : list band) (C : float),
    In t tables ->
    exists v,
      calculate_sub_aqi C t = Ok v
      /\ (v <=? 500) = true
      /\ (500 <? v) = false
      /\ (forall last, index_last t = Ok last -> (high_c last <? C) = true -> v = 500).
Proof.
  intros t C Hin.
  destruct (calculate_sub_aqi_range t C Hin) as (v & E & _ & H500).
  exists v. repeat split; try assumption.
  - now apply leb_not_ltb.
  - intros last Hl Hc.
    pose proof (above_top_500 C t last (tables_ascending_In t Hin) Hl Hc) as E'.
    congruence.
Qed.

Lemma sub_index_at_most_500_witness :
  exists v,
    calculate_sub_aqi 600 bp_pm25 = Ok v
    /\ (v <=? 500) = true
    /\ (500 <? v) = false
    /\ (forall last, index_last bp_pm25 = Ok last -> (high_c last <? 600) = true -> v = 500).
Proof.
  apply (sub_index_at_most_500 bp_pm25 600). simpl. tauto.
Defined.

(** C8, as stated, fails: on none of the five tables does a concentration
    above the top of the highest band have a sub-index above 500. *)
Lemma sub_index_never_above_500 :
  ~ exists t last C v,
      In t tables /\ index_last t = Ok last /\ (high_c last <? C) = true
      /\ calculate_sub_aqi C t = Ok v /\ (500 <? v) = true.
Proof.
  intros (t & last & C & v & Hin & Hl & Hc & E & H).
  rewrite (above_top_500 C t last (tables_ascending_In t Hin) Hl Hc) in E.
  injection E as <-. discriminate.
Qed.

(** C9: with one reading at least, the maximum is taken, and the dominant
    pollutant is chosen, on the sub-indices as [calculate_sub_aqi] returns
    them, unrounded; the overall index is this maximum rounded once, to a
    nearest integer (to the even one when the maximum lies half way
    between two integers). *)
Theorem get_aqi_rounds_once :
  forall pm25 pm10 co o3 no2 : option float,
    supplied (inputs pm25 pm10 co o3 no2) <> [] ->
    exists aqi_list overall r p,
      get_aqi pm25 pm10 co o3 no2 = Ok (r, p)
      /\ sub_indices_of (supplied (inputs pm25 pm10 co o3 no2)) aqi_list
      /\ Py.max (map snd aqi_list) = Ok overall
      /\ is_maximum overall (map snd aqi_list)
      /\ first_reaching overall aqi_list p
      /\ (Rabs (IZR r - fval (Prim2SF overall)) <= / 2)%R
      /\ (Rabs (IZR r - fval (Prim2SF overall)) = / 2 -> Z.even r = true)%R.
Proof.
  intros pm25 pm10 co o3 no2 Hs.
  destruct (get_aqi_spec pm25 pm10 co o3 no2 Hs)
    as (aqi_list & overall & r & p & E & HS & HR & Emax & Hmax & Hfirst & Hr & Hg).
  exists aqi_list, overall, r, p.
  assert (Hn : nonneg (Prim2SF overall)).
  { destruct Hmax as [Hin _]. apply in_map_iff in Hin.
    destruct Hin as (o & <- & Hin).
    destruct (proj1 (Forall_forall _ _) HR o Hin) as [H0 _].
    rewrite FloatAxioms.leb_spec in H0.
    eapply nonneg_le; [|exact H0]. exact I. }
  destruct (round_nearest overall r Hn Hr) as [N1 N2].
  repeat split; try assumption; apply Hmax.
Qed.

Lemma get_aqi_rounds_once_witness :
  exists aqi_list overall r p,
    get_aqi (Some 2.4) (Some 11) None None None = Ok (r, p)
    /\ sub_indices_of (supplied (inputs (Some 2.4) (Some 11) None None None)) aqi_list
    /\ Py.max (map snd aqi_list) = Ok overall
    /\ is_maximum overall (map snd aqi_list)
    /\ first_reaching overall aqi_list p
    /\ (Rabs (IZR r - fval (Prim2SF overall)) <= / 2)%R
    /\ (Rabs (IZR r - fval (Prim2SF overall)) = / 2 -> Z.even r = true)%R.
Proof.
  apply (get_aqi_rounds_once (Some 2.4) (Some 11) None None None).
  simpl. discriminate.
Defined.

(** Two sub-indices that round to the same integer are still compared
    unrounded: PM2.5 = 2.4 gives 10.0 and PM10 = 11 gives about 10.19; the
    index is 10 and the dominant pollutant is PM10, not the first of the
    two. *)
Example get_aqi_compares_unrounded :
  build_aqi_list (Some 2.4) (Some 11) None None None
  = Ok [("PM2.5", 50 * 2.4 / 12); ("PM10", 50 * 11 / 54)]
  /\ Py.round (50 * 2.4 / 12) = Ok 10%Z
  /\ Py.round (50 * 11 / 54) = Ok 10%Z
  /\ get_aqi (Some 2.4) (Some 11) None None None = Ok (10%Z, "PM10").
Proof. repeat split. Qed.

(** C10: in each of the five tables, a concentration strictly between the
    end of a band and the start of the next one is held by no band and
    has the sub-index 0, although the end of the band below it has the
    positive sub-index [high_i]: the sub-index decreases across the
    boundary (for PM2.5 from 50 at 12 to 0 at 12.05).  Within each band
    it does not decrease when the concentration increases. *)
Theorem sub_index_gaps_and_bands :
  forall (t pre post : list band) (b1 b2 : band),
    In t tables -> t = pre ++ b1 :: b2 :: post ->
    (forall C, (high_c b1 <? C) = true -> (C <? low_c b2) = true ->
               Forall (fun b => in_band C b = false) t
               /\ calculate_sub_aqi C t = Ok 0
               /\ calculate_sub_aqi (high_c b1) t = Ok (high_i b1)
               /\ (0 <? high_i b1) = true)
    /\ (calculate_sub_aqi 12 bp_pm25 = Ok 50
        /\ (12 <? 12.05) = true /\ (12.05 <? 12.1) = true
        /\ calculate_sub_aqi 12.05 bp_pm25 = Ok 0)
    /\ (forall b C1 C2,
           In b t -> in_band C1 b = true -> in_band C2 b = true ->
           (C1 <=? C2) = true ->
           exists v1 v2,
             calculate_sub_aqi C1 t = Ok v1 /\ calculate_sub_aqi C2 t = Ok v2
             /\ (v1 <=? v2) = true).
Proof.
  intros t pre post b1 b2 Hin Et.
  pose proof (tables_ascending_In t Hin) as Ha.
  pose proof (tables_good_In t Hin) as Hg.
  split; [|split].
  - intros C H1 H2. subst t.
    destruct (gap_no_match C pre b1 b2 post Ha H1 H2) as [Hno E0].
    split; [exact Hno|]. split; [exact E0|].
    assert (Hb1 : In b1 (pre ++ b1 :: b2 :: post)).
    { apply in_or_app. right. now left. }
    split.
    + pose proof (proj1 (Forall_forall _ _) tables_high_end _ Hin) as Hm.
      rewrite map_ext_in_iff in Hm. exact (Hm b1 Hb1).
    + pose proof (proj1 (Forall_forall _ _) tables_high_positive _ Hin) as Hp.
      exact (proj1 (Forall_forall _ _) Hp b1 Hb1).
  - repeat split.
  - intros b C1 C2 Hb Hin1 Hin2 H12.
    destruct (in_split b t Hb) as (pre' & post' & Et').
    pose proof (proj1 (Forall_forall _ _) Hg b Hb) as Hgb.
    exists (interpolate C1 b), (interpolate C2 b).
    rewrite Et' in *.
    rewrite !calculate_sub_aqi_in_band by assumption.
    repeat split.
    apply good_band_mono; [exact Hgb| |exact H12].
    unfold in_band in Hin1. apply andb_true_iff in Hin1. tauto.
Qed.

Lemma sub_index_gaps_and_bands_witness :
  (forall C, (high_c (0, 12, 0, 50) <? C) = true ->
             (C <? low_c (12.1, 35.4, 51, 100)) = true ->
             Forall (fun b => in_band C b = false) bp_pm25
             /\ calculate_sub_aqi C bp_pm25 = Ok 0
             /\ calculate_sub_aqi (high_c (0, 12, 0, 50)) bp_pm25
                = Ok (high_i (0, 12, 0, 50))
             /\ (0 <? high_i (0, 12, 0, 50)) = true)
  /\ (calculate_sub_aqi 12 bp_pm25 = Ok 50
      /\ (12 <? 12.05) = true /\ (12.05 <? 12.1) = true
      /\ calculate_sub_aqi 12.05 bp_pm25 = Ok 0)
  /\ (forall b C1 C2,
         In b bp_pm25 -> in_band C1 b = true -> in_band C2 b = true ->
         (C1 <=? C2) = true ->
         exists v1 v2,
           calculate_sub_aqi C1 bp_pm25 = Ok v1 /\ calculate_sub_aqi C2 bp_pm25 = Ok v2
           /\ (v1 <=? v2) = true).
Proof.
  apply (sub_index_gaps_and_bands bp_pm25 []
           [(35.5, 55.4, 101, 150); (55.5, 150.4, 151, 200);
            (150.5, 250.4, 201, 300); (250.5, 500.4, 301, 500)]
           (0, 12, 0, 50) (12.1, 35.4, 51, 100)).
  - simpl. tauto.
  - reflexivity.
Defined.

(** * Further properties of the code *)

(** ** [round] on the values the engine produces *)

Section RoundFacts.

Open Scope R_scope.

Lemma Rabs_le_inv a b : Rabs a <= b -> - b <= a <= b.
Proof. unfold Rabs. destruct (Rcase_abs a); lra. Qed.

Lemma int_valued_spec x a :
  int_valued x a = true ->
  fin_nonneg (Prim2SF x) /\ fval (Prim2SF x) = IZR a /\ (0 <= a)%Z.
Proof.
  unfold int_valued. destruct (Prim2SF x) as [s|[]| |[] m e]; try discriminate.
  - rewrite Z.eqb_eq. intros ->. simpl. repeat split. lia.
  - rewrite andb_true_iff, Z.leb_le, Z.eqb_eq. intros [He Hm].
    assert (P : (0 < 2 ^ (- e))%Z) by (apply Z.pow_pos_nonneg; lia).
    split; [exact I|]. split; [|nia].
    simpl fval. rewrite Hm, mult_IZR, <- bpow_IZR by lia.
    rewrite Rmult_assoc, bpow_cancel. lra.
Qed.

Lemma round_finite v :
  fin_nonneg (Prim2SF v) -> exists r, Py.round v = Ok r.
Proof.
  unfold Py.round. destruct (Prim2SF v) as [s|[]| |[] m e]; simpl;
    try contradiction; eauto.
Qed.

Lemma fin_nonneg_below v hi :
  nonneg (Prim2SF v) -> fin_nonneg (Prim2SF hi) -> (v <=? hi)%float = true ->
  fin_nonneg (Prim2SF v).
Proof.
  rewrite FloatAxioms.leb_spec.
  destruct (Prim2SF v) as [s|[]| |[] m e], (Prim2SF hi) as [s'|[]| |[] m' e'];
    simpl; try contradiction; try discriminate; auto.
Qed.

(** [round] is monotone. *)
Lemma round_mono x y rx ry :
  fin_nonneg (Prim2SF x) -> fin_nonneg (Prim2SF y) -> (x <=? y)%float = true ->
  Py.round x = Ok rx -> Py.round y = Ok ry -> (rx <= ry)%Z.
Proof.
  intros Fx Fy Hxy Rx Ry.
  destruct (fin_nonneg_val _ Fx) as [Vx Nx].
  destruct (fin_nonneg_val _ Fy) as [Vy Ny].
  rewrite FloatAxioms.leb_spec in Hxy.
  pose proof (val_le _ _ Nx Ny (Prim2SF_valid x) (Prim2SF_valid y) Hxy) as Hle.
  rewrite Vx, Vy in Hle. simpl in Hle.
  destruct (round_nearest x rx Nx Rx) as [Ax Ex].
  destruct (round_nearest y ry Ny Ry) as [Ay Ey].
  set (fx := fval (Prim2SF x)) in *. set (fy := fval (Prim2SF y)) in *.
  apply Rabs_le_inv in Ax. apply Rabs_le_inv in Ay.
  destruct (Z_le_gt_dec rx ry) as [|Hgt]; [assumption|exfalso].
  assert (H1 : IZR ry + 1 <= IZR rx).
  { rewrite <- plus_IZR. apply IZR_le. lia. }
  assert (Dx : IZR rx - fx = / 2) by lra.
  assert (Dy : IZR ry - fy = - / 2) by lra.
  assert (E1 : (rx = ry + 1)%Z).
  { apply eq_IZR. rewrite plus_IZR. lra. }
  assert (Evx : Z.even rx = true).
  { apply Ex. rewrite Dx. apply Rabs_pos_eq. lra. }
  assert (Evy : Z.even ry = true).
  { apply Ey. rewrite Dy, Rabs_Ropp. apply Rabs_pos_eq. lra. }
  rewrite E1 in Evx. change (ry + 1)%Z with (Z.succ ry) in Evx.
  rewrite Z.even_succ, <- Z.negb_even, Evy in Evx. discriminate.
Qed.

(** [round] of a value that is an integer is this integer. *)
Lemma round_int x a : int_valued x a = true -> Py.round x = Ok a.
Proof.
  intros H. destruct (int_valued_spec x a H) as (F & V & Ha).
  destruct (round_finite x F) as [r Er]. rewrite Er. f_equal.
  destruct (fin_nonneg_val _ F) as [_ N].
  destruct (round_nearest x r N Er) as [A _]. rewrite V in A.
  apply Rabs_le_inv in A. rewrite <- minus_IZR in A.
  assert (-1 < r - a < 1)%Z.
  { split; apply lt_IZR; destruct A; lra. }
  lia.
Qed.

(** A value between two integers rounds between them. *)
Lemma round_between lo hi a b v :
  int_valued lo a = true -> int_valued hi b = true ->
  (lo <=? v)%float = true -> (v <=? hi)%float = true ->
  exists r, Py.round v = Ok r /\ (a <= r <= b)%Z.
Proof.
  intros Hlo Hhi H1 H2.
  destruct (int_valued_spec lo a Hlo) as (Flo & _ & _).
  destruct (int_valued_spec hi b Hhi) as (Fhi & _ & _).
  assert (Nv : nonneg (Prim2SF v)).
  { rewrite FloatAxioms.leb_spec in H1. eapply nonneg_le; [|exact H1].
    now apply fin_nonneg_val. }
  pose proof (fin_nonneg_below v hi Nv Fhi H2) as Fv.
  destruct (round_finite v Fv) as [r Er]. exists r. split; [exact Er|].
  split.
  - exact (round_mono lo v a r Flo Fv H1 (round_int lo a Hlo) Er).
  - exact (round_mono v hi r b Fv Fhi H2 Er (round_int hi b Hhi)).
Qed.

End RoundFacts.

(** ** The sub-index, band by band *)

Section BandFacts.

Lemma tables_low_end :
  Forall (fun t => map (fun b => calculate_sub_aqi (low_c b) t) t
                   = map (fun b => Ok (low_i b)) t) tables.
Proof. repeat constructor. Qed.

Lemma tables_index_ascending :
  Forall (fun t => ascending (map by_index t) = true) tables.
Proof. repeat constructor. Qed.

Lemma in_band_bounds C b :
  in_band C b = true -> (low_c b <=? C) = true /\ (C <=? high_c b) = true.
Proof. unfold in_band. now rewrite andb_true_iff. Qed.

(** The sub-index of a concentration held by the band [b] of a table. *)
Lemma in_band_value t b C :
  In t tables -> In b t -> in_band C b = true ->
  calculate_sub_aqi C t = Ok (interpolate C b)
  /\ (low_i b <=? interpolate C b) = true
  /\ (interpolate C b <=? high_i b) = true.
Proof.
  intros Ht Hb Hin.
  pose proof (tables_ascending_In t Ht) as Ha.
  pose proof (proj1 (Forall_forall _ _) (tables_good_In t Ht) b Hb) as Hg.
  destruct (in_split b t Hb) as (pre & post & ->).
  split; [now apply calculate_sub_aqi_in_band|].
  now apply good_band_value.
Qed.

(** Two concentrations held by bands of a table, in order. *)
Lemma held_mono t b1 b2 C1 C2 :
  In t tables -> In b1 t -> In b2 t ->
  in_band C1 b1 = true -> in_band C2 b2 = true -> (C1 <=? C2) = true ->
  (interpolate C1 b1 <=? interpolate C2 b2) = true
  /\ (in_band C2 b1 = false -> (interpolate C1 b1 <? interpolate C2 b2) = true).
Proof.
  intros Ht Hb1 Hb2 Hin1 Hin2 H12.
  destruct (in_band_value t b1 C1 Ht Hb1 Hin1) as (E1 & L1 & U1).
  destruct (in_band_value t b2 C2 Ht Hb2 Hin2) as (E2 & L2 & U2).
  destruct (in_band_bounds _ _ Hin1) as [A1 B1].
  destruct (in_band_bounds _ _ Hin2) as [A2 B2].
  pose proof (tables_ascending_In t Ht) as Ha.
  pose proof (proj1 (Forall_forall _ _) tables_index_ascending t Ht) as Hi.
  destruct (in_split b1 t Hb1) as (pre & post & Et). subst t.
  apply in_app_or in Hb2. destruct Hb2 as [Hpre|[<-|Hpost]].
  - (* a band before [b1] cannot hold the greater concentration *)
    exfalso.
    pose proof (ascending_earlier pre b1 post b2 Ha Hpre) as Hlt.
    assert (H : (high_c b2 <? C2) = true).
    { eapply ltb_leb_trans; [exact Hlt|]. eapply leb_trans; eauto. }
    apply ltb_not_leb in H. congruence.
  - split; [|congruence].
    apply good_band_mono; auto.
    exact (proj1 (Forall_forall _ _) (tables_good_In _ Ht) b1 Hb1).
  - assert (Hlt : (high_i b1 <? low_i b2) = true).
    { rewrite map_app in Hi. apply ascending_app_r in Hi.
      apply (ascending_later (by_index b1) (map by_index post) (by_index b2) Hi).
      now apply in_map. }
    assert (Hs : (interpolate C1 b1 <? interpolate C2 b2) = true).
    { eapply leb_ltb_trans; [exact U1|]. eapply ltb_leb_trans; eauto. }
    split; [now apply ltb_leb|auto].
Qed.

End BandFacts.

(** X1: in each of the five tables the interpolation is exact at the two
    ends of every band: the sub-index of [low_c] is [low_i] and the
    sub-index of [high_c] is [high_i], with no rounding error. *)
Theorem band_ends_exact :
  forall (t : list band) (b : band),
    In t tables -> In b t ->
    calculate_sub_aqi (low_c b) t = Ok (low_i b)
    /\ calculate_sub_aqi (high_c b) t = Ok (high_i b).
Proof.
  intros t b Ht Hb. split.
  - pose proof (proj1 (Forall_forall _ _) tables_low_end _ Ht) as Hm.
    rewrite map_ext_in_iff in Hm. exact (Hm b Hb).
  - pose proof (proj1 (Forall_forall _ _) tables_high_end _ Ht) as Hm.
    rewrite map_ext_in_iff in Hm. exact (Hm b Hb).
Qed.

Lemma band_ends_exact_witness :
  calculate_sub_aqi (low_c (9.5, 12.4, 101, 150)) bp_co = Ok (low_i (9.5, 12.4, 101, 150))
  /\ calculate_sub_aqi (high_c (9.5, 12.4, 101, 150)) bp_co
     = Ok (high_i (9.5, 12.4, 101, 150)).
Proof.
  apply (band_ends_exact bp_co (9.5, 12.4, 101, 150)); simpl; tauto.
Defined.

(** X2: in each of the five tables, the sub-index of a concentration held
    by a band is returned without error and lies between the two indices
    of that band. *)
Theorem sub_index_within_band :
  forall (t : list band) (b : band) (C : float),
    In t tables -> In b t -> in_band C b = true ->
    exists v,
      calculate_sub_aqi C t = Ok v
      /\ (low_i b <=? v) = true /\ (v <=? high_i b) = true.
Proof.
  intros t b C Ht Hb Hin. exists (interpolate C b).
  now apply in_band_value.
Qed.

Lemma sub_index_within_band_witness :
  exists v,
    calculate_sub_aqi 60 bp_o3 = Ok v
    /\ (low_i (55, 70, 51, 100) <=? v) = true /\ (v <=? high_i (55, 70, 51, 100)) = true.
Proof.
  apply (sub_index_within_band bp_o3 (55, 70, 51, 100) 60);
    [simpl; tauto|simpl; tauto|reflexivity].
Defined.

(** X3: on the concentrations that some band holds, the sub-index does
    not decrease when the concentration increases; and it increases
    strictly when the greater concentration lies beyond the band of the
    smaller one. *)
Theorem sub_index_monotone_on_bands :
  forall (t : list band) (b1 b2 : band) (C1 C2 : float),
    In t tables -> In b1 t -> In b2 t ->
    in_band C1 b1 = true -> in_band C2 b2 = true -> (C1 <=? C2) = true ->
    exists v1 v2,
      calculate_sub_aqi C1 t = Ok v1 /\ calculate_sub_aqi C2 t = Ok v2
      /\ (v1 <=? v2) = true
      /\ (in_band C2 b1 = false -> (v1 <? v2) = true).
Proof.
  intros t b1 b2 C1 C2 Ht Hb1 Hb2 Hin1 Hin2 H12.
  exists (interpolate C1 b1), (interpolate C2 b2).
  split; [exact (proj1 (in_band_value t b1 C1 Ht Hb1 Hin1))|].
  split; [exact (proj1 (in_band_value t b2 C2 Ht Hb2 Hin2))|].
  exact (held_mono t b1 b2 C1 C2 Ht Hb1 Hb2 Hin1 Hin2 H12).
Qed.

Lemma sub_index_monotone_on_bands_witness :
  exists v1 v2,
    calculate_sub_aqi 10 bp_pm25 = Ok v1 /\ calculate_sub_aqi 20 bp_pm25 = Ok v2
    /\ (v1 <=? v2) = true
    /\ (in_band 20 (0, 12, 0, 50) = false -> (v1 <? v2) = true).
Proof.
  apply (sub_index_monotone_on_bands bp_pm25 (0, 12, 0, 50) (12.1, 35.4, 51, 100) 10 20);
    try reflexivity; simpl; tauto.
Defined.

(** ** When [calculate_sub_aqi] raises, and what it does with odd inputs *)

Section OddInputs.


(** The loop either finds no band, or stops at the first band that holds
    [C] and evaluates the formula on it. *)
Lemma for_bands_cases C bands orelse :
  (Forall (fun b => in_band C b = false) bands
   /\ for_bands C bands orelse = orelse)
  \/ (exists pre b post,
        bands = pre ++ b :: post
        /\ Forall (fun b' => in_band C b' = false) pre
        /\ in_band C b = true
        /\ for_bands C bands orelse
           = (q <- truediv ((high_i b - low_i b) * (C - low_c b)) (high_c b - low_c b) ;;
              Ok (low_i b + q))).
Proof.
  induction bands as [|b rest IH].
  - left. split; [constructor|reflexivity].
  - destruct (in_band C b) eqn:Hb.
    + right. exists [], b, rest.
      split; [reflexivity|]. split; [constructor|]. split; [exact Hb|].
      destruct b as [[[lc hc] li] hi]. unfold in_band in Hb. simpl in *.
      now rewrite Hb.
    + assert (E : for_bands C (b :: rest) orelse = for_bands C rest orelse).
      { destruct b as [[[lc hc] li] hi]. unfold in_band in Hb. simpl in *.
        now rewrite Hb. }
      destruct IH as [[Hno Er]|(pre & b' & post & -> & Hpre & Hb' & Er)].
      * left. split; [now constructor|congruence].
      * right. exists (b :: pre), b', post.
        split; [reflexivity|]. split; [now constructor|].
        split; [assumption|congruence].
Qed.



(** A NaN compares with nothing. *)
Lemma nan_compares C x :
  (C =? C) = false ->
  (x <=? C) = false /\ (C <=? x) = false /\ (x <? C) = false.
Proof.
  intros Hn. repeat split.
  - destruct (x <=? C) eqn:E; [|reflexivity].
    apply leb_eqb_r in E. congruence.
  - destruct (C <=? x) eqn:E; [|reflexivity].
    apply leb_eqb_l in E. congruence.
  - destruct (x <? C) eqn:E; [|reflexivity].
    apply ltb_leb, leb_eqb_r in E. congruence.
Qed.

Lemma tables_low_nonneg :
  Forall (Forall (fun b => (0 <=? low_c b) = true)) tables.
Proof. repeat constructor. Qed.

End OddInputs.


(** X5: a NaN concentration is held by no band and is not above the last
    one: on every table that is not empty its sub-index is 0. *)
Theorem sub_index_of_nan :
  forall (C : float) (bands : list band) (last : band),
    (C =? C) = false -> index_last bands = Ok last ->
    Forall (fun b => in_band C b = false) bands
    /\ calculate_sub_aqi C bands = Ok 0.
Proof.
  intros C bands last Hn Hl.
  assert (Hno : Forall (fun b => in_band C b = false) bands).
  { apply Forall_forall. intros b _. unfold in_band.
    destruct (nan_compares C (low_c b) Hn) as (-> & _). reflexivity. }
  split; [exact Hno|].
  unfold calculate_sub_aqi. rewrite for_bands_no_match by exact Hno.
  rewrite Hl. simpl.
  destruct (nan_compares C (high_c last) Hn) as (_ & _ & ->). reflexivity.
Qed.

Lemma sub_index_of_nan_witness :
  Forall (fun b => in_band nan b = false) bp_no2
  /\ calculate_sub_aqi nan bp_no2 = Ok 0.
Proof.
  apply (sub_index_of_nan nan bp_no2 (1250, 2049, 301, 500)); reflexivity.
Defined.

(** X6: in each of the five tables a negative concentration (the negative
    infinity included) is held by no band, and its sub-index is 0. *)
Theorem sub_index_of_negative :
  forall (t : list band) (C : float),
    In t tables -> (C <? 0) = true ->
    Forall (fun b => in_band C b = false) t
    /\ calculate_sub_aqi C t = Ok 0.
Proof.
  intros t C Ht Hc.
  pose proof (tables_ascending_In t Ht) as Ha.
  pose proof (proj1 (Forall_forall _ _) tables_low_nonneg t Ht) as Hlow.
  assert (Hno : Forall (fun b => in_band C b = false) t).
  { apply Forall_forall. intros b Hb. unfold in_band.
    apply andb_false_iff. left. apply ltb_not_leb.
    eapply ltb_leb_trans; [exact Hc|].
    exact (proj1 (Forall_forall _ _) Hlow b Hb). }
  split; [exact Hno|].
  unfold calculate_sub_aqi. rewrite for_bands_no_match by exact Hno.
  destruct (tables_last t Ht) as [last Hl]. rewrite Hl. simpl.
  assert (Hin : In last t) by now apply index_last_In.
  assert (H : (high_c last <? C) = false).
  { apply leb_not_ltb. apply ltb_leb.
    eapply ltb_leb_trans; [exact Hc|].
    eapply leb_trans; [exact (proj1 (Forall_forall _ _) Hlow last Hin)|].
    eapply ascending_low_high; eauto. }
  now rewrite H.
Qed.

Lemma sub_index_of_negative_witness :
  Forall (fun b => in_band (-3.5) b = false) bp_pm10
  /\ calculate_sub_aqi (-3.5) bp_pm10 = Ok 0.
Proof.
  apply (sub_index_of_negative bp_pm10 (-3.5)); [simpl; tauto|reflexivity].
Defined.

(** ** The overall index and the readings *)

Section Overall.

Lemma Forall2_In_l {A B : Type} (R : A -> B -> Prop) l1 l2 x :
  Forall2 R l1 l2 -> In x l1 -> exists y, In y l2 /\ R x y.
Proof.
  induction 1 as [|a b l1 l2 Hab _ IH]; intros Hin; [destruct Hin|].
  destruct Hin as [<-|Hin].
  - exists b. split; [now left|assumption].
  - destruct (IH Hin) as (y & Hy & Hxy). exists y. split; [now right|assumption].
Qed.

Lemma Forall2_In_r {A B : Type} (R : A -> B -> Prop) l1 l2 y :
  Forall2 R l1 l2 -> In y l2 -> exists x, In x l1 /\ R x y.
Proof.
  induction 1 as [|a b l1 l2 Hab _ IH]; intros Hin; [destruct Hin|].
  destruct Hin as [<-|Hin].
  - exists a. split; [now left|assumption].
  - destruct (IH Hin) as (x & Hx & Hxy). exists x. split; [now right|assumption].
Qed.

Lemma supplied_nil pm25 pm10 co o3 no2 :
  supplied (inputs pm25 pm10 co o3 no2) = [] ->
  pm25 = None /\ pm10 = None /\ co = None /\ o3 = None /\ no2 = None.
Proof. destruct pm25, pm10, co, o3, no2; simpl; intros H; try discriminate; auto. Qed.

(** A value of [0, 500] rounds into [0, 500]. *)
Lemma round_0_500 v r :
  (0 <=? v) = true -> (v <=? 500) = true -> Py.round v = Ok r -> (0 <= r <= 500)%Z.
Proof.
  intros H0 H1 Hr.
  destruct (round_between 0 500 0 500 v) as (r' & Er & Hb); try reflexivity; auto.
  congruence.
Qed.

Lemma in_range_fin (aqi_list : list (string * float)) o :
  in_range aqi_list -> In o aqi_list ->
  fin_nonneg (Prim2SF (snd o)) /\ (0 <=? snd o) = true /\ (snd o <=? 500) = true.
Proof.
  intros HR Hin. destruct (proj1 (Forall_forall _ _) HR o Hin) as [H0 H1].
  split; [|auto].
  apply (fin_nonneg_below _ 500); [|exact I|exact H1].
  rewrite FloatAxioms.leb_spec in H0. eapply nonneg_le; [|exact H0]. exact I.
Qed.

(** The pair [get_aqi] picks belongs to a supplied reading. *)
Lemma first_reaching_supplied ins aqi_list overall p :
  sub_indices_of ins aqi_list -> first_reaching overall aqi_list p ->
  exists w c bp,
    In (p, w) aqi_list /\ (w =? overall) = true
    /\ In (p, c, bp) ins /\ calculate_sub_aqi c bp = Ok w.
Proof.
  intros HS (pre & w & post & El & Hw & _).
  assert (Hin : In (p, w) aqi_list).
  { rewrite El. apply in_or_app. right. now left. }
  destruct (Forall2_In_r _ _ _ _ HS Hin) as ([[n c] bp] & Hi & Hn & Hc).
  simpl in *. subst n. exists w, c, bp. auto.
Qed.

Lemma eqb_round_eq x y rx ry :
  fin_nonneg (Prim2SF x) -> fin_nonneg (Prim2SF y) -> (x =? y) = true ->
  Py.round x = Ok rx -> Py.round y = Ok ry -> rx = ry.
Proof.
  intros Fx Fy E Rx Ry. rewrite eqb_leb in E. apply andb_true_iff in E.
  destruct E as [E1 E2].
  pose proof (round_mono x y rx ry Fx Fy E1 Rx Ry).
  pose proof (round_mono y x ry rx Fy Fx E2 Ry Rx). lia.
Qed.

Lemma supplied_extends r1 r2 r3 r4 r5 r1' r2' r3' r4' r5' i :
  extends r1 r1' -> extends r2 r2' -> extends r3 r3' -> extends r4 r4' ->
  extends r5 r5' ->
  In i (supplied (inputs r1 r2 r3 r4 r5)) ->
  In i (supplied (inputs r1' r2' r3' r4' r5')).
Proof.
  unfold extends.
  intros [->| ->] [->| ->] [->| ->] [->| ->] [->| ->];
    repeat match goal with x : option float |- _ => destruct x end;
    simpl; tauto.
Qed.

End Overall.

(** X7: whatever the five readings are (none, a NaN, an infinity, a
    negative number), [get_aqi] raises nothing; the overall index it
    returns is an integer of [0, 500], and the dominant pollutant is the
    name of a supplied reading, or "No data" with the index 0 when no
    reading is supplied. *)
Theorem get_aqi_total :
  forall pm25 pm10 co o3 no2 : option float,
    exists r p,
      get_aqi pm25 pm10 co o3 no2 = Ok (r, p)
      /\ (0 <= r <= 500)%Z
      /\ (supplied (inputs pm25 pm10 co o3 no2) = [] -> r = 0%Z /\ p = "No data")
      /\ (supplied (inputs pm25 pm10 co o3 no2) <> [] ->
          In p (supplied_names (supplied (inputs pm25 pm10 co o3 no2)))
          /\ In p pollutants).
Proof.
  intros pm25 pm10 co o3 no2.
  destruct (supplied (inputs pm25 pm10 co o3 no2)) as [|i0 l] eqn:Es.
  - destruct (supplied_nil _ _ _ _ _ Es) as (-> & -> & -> & -> & ->).
    exists 0%Z, "No data".
    split; [reflexivity|]. split; [lia|]. split; [auto|].
    intros Hn. now elim Hn.
  - assert (Hs : supplied (inputs pm25 pm10 co o3 no2) <> []) by (rewrite Es; discriminate).
    destruct (get_aqi_spec pm25 pm10 co o3 no2 Hs)
      as (aqi_list & overall & r & p & _ & HS & HR & _ & Hmax & Hfirst & Hr & Hg).
    exists r, p. split; [exact Hg|].
    destruct Hmax as [Hin _]. apply in_map_iff in Hin. destruct Hin as (o & <- & Hin).
    destruct (in_range_fin _ _ HR Hin) as (_ & H0 & H1).
    split; [exact (round_0_500 _ _ H0 H1 Hr)|].
    split; [discriminate|]. intros _.
    destruct (first_reaching_supplied _ _ _ _ HS Hfirst) as (w & c & bp & _ & _ & Hi & _).
    assert (Hp : In p (supplied_names (supplied (inputs pm25 pm10 co o3 no2)))).
    { unfold supplied_names. apply in_map_iff. exists (p, c, bp). auto. }
    rewrite <- Es. split; [exact Hp|].
    clear -Hp. unfold supplied_names, pollutants in *.
    destruct pm25, pm10, co, o3, no2; simpl in *; tauto.
Qed.

(** X8: with one reading at least, no supplied pollutant has a rounded
    sub-index above the overall index, and the overall index is the
    rounded sub-index of the dominant pollutant. *)
Theorem overall_at_least_each :
  forall pm25 pm10 co o3 no2 : option float,
    supplied (inputs pm25 pm10 co o3 no2) <> [] ->
    exists r p,
      get_aqi pm25 pm10 co o3 no2 = Ok (r, p)
      /\ (forall name c bp,
             In (name, c, bp) (supplied (inputs pm25 pm10 co o3 no2)) ->
             exists v ri,
               calculate_sub_aqi c bp = Ok v /\ Py.round v = Ok ri /\ (ri <= r)%Z)
      /\ (exists c bp v,
             In (p, c, bp) (supplied (inputs pm25 pm10 co o3 no2))
             /\ calculate_sub_aqi c bp = Ok v /\ Py.round v = Ok r).
Proof.
  intros pm25 pm10 co o3 no2 Hs.
  destruct (get_aqi_spec pm25 pm10 co o3 no2 Hs)
    as (aqi_list & overall & r & p & _ & HS & HR & _ & Hmax & Hfirst & Hr & Hg).
  exists r, p. split; [exact Hg|].
  destruct Hmax as [Hin Hall].
  assert (Ho : fin_nonneg (Prim2SF overall)).
  { apply in_map_iff in Hin. destruct Hin as (o & <- & Hin).
    now apply (in_range_fin aqi_list). }
  split.
  - intros name c bp Hi.
    destruct (Forall2_In_l _ _ _ _ HS Hi) as (o & Ho' & _ & Hc). simpl in Hc.
    destruct (in_range_fin _ _ HR Ho') as (Fo & _).
    destruct (round_finite _ Fo) as [ri Eri].
    exists (snd o), ri. split; [exact Hc|]. split; [exact Eri|].
    apply (round_mono (snd o) overall); auto.
    apply (proj1 (Forall_forall _ _) Hall). now apply in_map.
  - destruct (first_reaching_supplied _ _ _ _ HS Hfirst)
      as (w & c & bp & Hw & Ew & Hi & Hc).
    exists c, bp, w. split; [exact Hi|]. split; [exact Hc|].
    destruct (in_range_fin _ _ HR Hw) as (Fw & _). simpl in Fw.
    destruct (round_finite _ Fw) as [rw Erw].
    rewrite Erw. f_equal. exact (eqb_round_eq w overall rw r Fw Ho Ew Erw Hr).
Qed.

Lemma overall_at_least_each_witness :
  exists r p,
    get_aqi (Some 25) None (Some 1) None None = Ok (r, p)
    /\ (forall name c bp,
           In (name, c, bp) (supplied (inputs (Some 25) None (Some 1) None None)) ->
           exists v ri,
             calculate_sub_aqi c bp = Ok v /\ Py.round v = Ok ri /\ (ri <= r)%Z)
    /\ (exists c bp v,
           In (p, c, bp) (supplied (inputs (Some 25) None (Some 1) None None))
           /\ calculate_sub_aqi c bp = Ok v /\ Py.round v = Ok r).
Proof.
  apply (overall_at_least_each (Some 25) None (Some 1) None None).
  simpl. discriminate.
Defined.

(** X9: supplying readings that were missing, the others unchanged, never
    lowers the overall index. *)
Theorem more_readings_not_lower :
  forall r1 r2 r3 r4 r5 r1' r2' r3' r4' r5' : option float,
    extends r1 r1' -> extends r2 r2' -> extends r3 r3' -> extends r4 r4' ->
    extends r5 r5' ->
    exists a p a' p',
      get_aqi r1 r2 r3 r4 r5 = Ok (a, p)
      /\ get_aqi r1' r2' r3' r4' r5' = Ok (a', p')
      /\ (a <= a')%Z.
Proof.
  intros r1 r2 r3 r4 r5 r1' r2' r3' r4' r5' E1 E2 E3 E4 E5.
  destruct (supplied (inputs r1 r2 r3 r4 r5)) as [|i0 l] eqn:Es.
  - (* nothing was supplied: the index was 0 *)
    destruct (supplied_nil _ _ _ _ _ Es) as (-> & -> & -> & -> & ->).
    exists 0%Z, "No data".
    destruct (supplied (inputs r1' r2' r3' r4' r5')) as [|j0 l'] eqn:Es'.
    + destruct (supplied_nil _ _ _ _ _ Es') as (-> & -> & -> & -> & ->).
      exists 0%Z, "No data". repeat split. lia.
    + assert (Hs' : supplied (inputs r1' r2' r3' r4' r5') <> [])
        by (rewrite Es'; discriminate).
      destruct (get_aqi_spec _ _ _ _ _ Hs')
        as (aqi_list & overall & a' & p' & _ & _ & HR & _ & [Hin _] & _ & Hr & Hg).
      exists a', p'. split; [reflexivity|]. split; [exact Hg|].
      apply in_map_iff in Hin. destruct Hin as (o & <- & Hin).
      destruct (in_range_fin _ _ HR Hin) as (_ & H0 & H1).
      exact (proj1 (round_0_500 _ _ H0 H1 Hr)).
  - assert (Hs : supplied (inputs r1 r2 r3 r4 r5) <> []) by (rewrite Es; discriminate).
    assert (Hs' : supplied (inputs r1' r2' r3' r4' r5') <> []).
    { intros H. pose proof (supplied_extends _ _ _ _ _ _ _ _ _ _ i0 E1 E2 E3 E4 E5) as Hi.
      rewrite Es, H in Hi. apply Hi. now left. }
    clear Es.
    destruct (get_aqi_spec _ _ _ _ _ Hs)
      as (aqi_list & overall & a & p & _ & HS & HR & _ & [Hin _] & _ & Hr & Hg).
    destruct (get_aqi_spec _ _ _ _ _ Hs')
      as (aqi_list' & overall' & a' & p' & _ & HS' & HR' & _ & [Hin' Hall'] & _ & Hr' & Hg').
    exists a, p, a', p'. split; [exact Hg|]. split; [exact Hg'|].
    apply in_map_iff in Hin. destruct Hin as (o & <- & Hin).
    apply in_map_iff in Hin'. destruct Hin' as (o' & <- & Hin').
    destruct (in_range_fin _ _ HR Hin) as (Fo & _).
    destruct (in_range_fin _ _ HR' Hin') as (Fo' & _).
    apply (round_mono (snd o) (snd o')); auto.
    (* the old maximum is one of the new sub-indices *)
    destruct (Forall2_In_r _ _ _ _ HS Hin) as (i & Hi & _ & Hc).
    pose proof (supplied_extends _ _ _ _ _ _ _ _ _ _ i E1 E2 E3 E4 E5 Hi) as Hi'.
    destruct (Forall2_In_l _ _ _ _ HS' Hi') as (o2 & Ho2 & _ & Hc2).
    assert (E : snd o2 = snd o) by congruence.
    rewrite <- E. apply (proj1 (Forall_forall _ _) Hall'). now apply in_map.
Qed.

Lemma more_readings_not_lower_witness :
  exists a p a' p',
    get_aqi (Some 25) None None None None = Ok (a, p)
    /\ get_aqi (Some 25) (Some 300) None None None = Ok (a', p')
    /\ (a <= a')%Z.
Proof.
  apply (more_readings_not_lower (Some 25) None None None None
           (Some 25) (Some 300) None None None);
    unfold extends; auto.
Defined.

(** ** The bands, the ladder and the gauge *)

Section Ladder.

Lemma tables_index_ranges :
  Forall (fun t => index_ranges_are t (map fst Ui.steps) = true) tables.
Proof. repeat constructor. Qed.

Lemma index_ranges_nth t : forall ranges n b,
  index_ranges_are t ranges = true -> nth_error t n = Some b ->
  exists a c,
    nth_error ranges n = Some (a, c)
    /\ int_valued (low_i b) a = true /\ int_valued (high_i b) c = true.
Proof.
  unfold index_ranges_are.
  induction t as [|b0 t IH]; intros ranges n b H Hn.
  - destruct n; discriminate.
  - destruct ranges as [|[a0 c0] ranges]; [discriminate|].
    apply andb_true_iff in H. destruct H as [Hl Hf].
    simpl in Hf. apply andb_true_iff in Hf. destruct Hf as [H0 Hf].
    apply andb_true_iff in H0. destruct H0 as [Ha Hc].
    destruct n as [|n]; simpl in Hn.
    + injection Hn as <-. exists a0, c0. auto.
    + apply (IH ranges n b); [|exact Hn].
      apply andb_true_iff. split; [exact Hl|exact Hf].
Qed.

Ltac ladder :=
  unfold category;
  repeat match goal with
         | |- context [(?a <=? ?b)%Z] => destruct (Z.leb_spec a b); try lia
         end;
  try reflexivity.

(** An index inside the [n]-th step of the gauge gets the [n]-th category
    of the ladder and the colour of that step. *)
Lemma step_category n lo hi colour r :
  nth_error Ui.steps n = Some (lo, hi, colour) -> (lo <= r <= hi)%Z ->
  category r = (nth n categories "", colour).
Proof.
  intros Hn Hr.
  do 6 (destruct n as [|n]; [injection Hn as <- <- <-; ladder|]).
  destruct n; discriminate.
Qed.

Lemma recommendation_found aqi :
  exists text, Ui.dict_get Ui.recommendations (fst (category aqi)) = Some text.
Proof. ladder; eexists; reflexivity. Qed.

End Ladder.

(** X10: in each of the five tables, a concentration held by the band at
    position [n] has a sub-index that rounds into the [n]-th step of the
    gauge, and the ladder gives it the [n]-th category and the colour of
    that step. *)
Theorem band_gives_category :
  forall (t : list band) (n : nat) (b : band) (C : float),
    In t tables -> nth_error t n = Some b -> in_band C b = true ->
    exists v r lo hi colour,
      calculate_sub_aqi C t = Ok v /\ Py.round v = Ok r
      /\ nth_error Ui.steps n = Some (lo, hi, colour)
      /\ (lo <= r <= hi)%Z
      /\ category r = (nth n categories "", colour).
Proof.
  intros t n b C Ht Hn Hin.
  destruct (in_band_value t b C Ht (nth_error_In _ _ Hn) Hin) as (Ev & Lv & Uv).
  pose proof (proj1 (Forall_forall _ _) tables_index_ranges t Ht) as Hr.
  destruct (index_ranges_nth t _ n b Hr Hn) as (lo & hi & Es & Hlo & Hhi).
  destruct (round_between _ _ lo hi _ Hlo Hhi Lv Uv) as (r & Er & Hb).
  rewrite nth_error_map in Es.
  destruct (nth_error Ui.steps n) as [[[lo' hi'] colour]|] eqn:En; [|discriminate].
  simpl in Es. injection Es as -> ->.
  exists (interpolate C b), r, lo, hi, colour.
  split; [exact Ev|]. split; [exact Er|]. split; [reflexivity|]. split; [exact Hb|].
  exact (step_category n lo hi colour r En Hb).
Qed.

Lemma band_gives_category_witness :
  exists v r lo hi colour,
    calculate_sub_aqi 40 bp_pm25 = Ok v /\ Py.round v = Ok r
    /\ nth_error Ui.steps 2 = Some (lo, hi, colour)
    /\ (lo <= r <= hi)%Z
    /\ category r = (nth 2 categories "", colour).
Proof.
  apply (band_gives_category bp_pm25 2 (35.5, 55.4, 101, 150) 40);
    [simpl; tauto|reflexivity|reflexivity].
Defined.

(** X11: whatever five numbers the form holds, a click ends with the
    gauge and a recommendation shown: [get_aqi] does not raise and the
    lookup in [recommendations] finds its key.  The value of the gauge is
    the index of [get_aqi], inside the range of the axis; the threshold
    sits at the value; the number and the bar have the colour of the
    ladder; and the text is the recommendation of the category. *)
Theorem on_calculate_shows :
  forall pm25 pm10 co_ppm o3_ppb no2_ppb : float,
    exists g text p,
      Ui.on_calculate pm25 pm10 co_ppm o3_ppb no2_ppb = Ui.Shown g text
      /\ get_aqi (Some pm25) (Some pm10) (Some co_ppm) (Some o3_ppb) (Some no2_ppb)
         = Ok (Ui.value g, p)
      /\ In p pollutants
      /\ (fst Ui.axis_range <= Ui.value g <= snd Ui.axis_range)%Z
      /\ Ui.threshold_value g = Ui.value g
      /\ Ui.number_color g = snd (category (Ui.value g))
      /\ Ui.bar_color g = snd (category (Ui.value g))
      /\ Ui.dict_get Ui.recommendations (fst (category (Ui.value g))) = Some text
      /\ Ui.title g = ("<b>AQI: " ++ Ui.str (Ui.value g) ++ "</b><br>"
                       ++ fst (category (Ui.value g)) ++ "<br>Main Pollutant: " ++ p)%string.
Proof.
  intros pm25 pm10 co o3 no2.
  assert (Hs : supplied (inputs (Some pm25) (Some pm10) (Some co) (Some o3) (Some no2)) <> [])
    by (simpl; discriminate).
  destruct (get_aqi_spec _ _ _ _ _ Hs)
    as (aqi_list & overall & r & p & _ & HS & HR & _ & [Hin _] & Hfirst & Hr & Hg).
  apply in_map_iff in Hin. destruct Hin as (o & <- & Hin).
  destruct (in_range_fin _ _ HR Hin) as (_ & H0 & H1).
  pose proof (round_0_500 _ _ H0 H1 Hr) as Hrange.
  destruct (first_reaching_supplied _ _ _ _ HS Hfirst) as (w & c & bp & _ & _ & Hi & _).
  assert (Hp : In p pollutants).
  { clear -Hi. simpl in Hi. unfold pollutants.
    repeat (destruct Hi as [Hi|Hi]; [injection Hi as <- _ _; simpl; tauto|]).
    destruct Hi. }
  destruct (recommendation_found r) as [text Ht].
  unfold Ui.on_calculate. rewrite Hg.
  destruct (category r) as [cat color] eqn:Ec. cbn [fst] in Ht. rewrite Ht.
  eexists _, text, p. split; [reflexivity|].
  cbn [Ui.value Ui.threshold_value Ui.number_color Ui.bar_color Ui.title].
  rewrite Ec. cbn [fst snd]. unfold Ui.axis_range. cbn [fst snd].
  repeat split; auto; lia.
Qed.

(** X12: an index of [0, 500] lies in exactly one step of the gauge, and
    that step has the colour the ladder gives the index; no index falls
    between two steps. *)
Theorem steps_match_ladder :
  forall aqi : Z,
    (0 <= aqi <= 500)%Z ->
    exists lo hi,
      In (lo, hi, snd (category aqi)) Ui.steps
      /\ (lo <= aqi <= hi)%Z
      /\ forall lo' hi' colour',
           In (lo', hi', colour') Ui.steps -> (lo' <= aqi <= hi')%Z ->
           (lo', hi', colour') = (lo, hi, snd (category aqi)).
Proof.
  intros aqi Hr.
  assert (Hu : forall n m s s',
             nth_error Ui.steps n = Some s -> nth_error Ui.steps m = Some s' ->
             (fst (fst s) <= aqi <= snd (fst s))%Z ->
             (fst (fst s') <= aqi <= snd (fst s'))%Z -> s = s').
  { intros n m s s' Hn Hm H1 H2.
    do 6 (destruct n as [|n];
          [injection Hn as <-;
           do 6 (destruct m as [|m];
                 [injection Hm as <-; simpl in H1, H2; try reflexivity; lia|]);
           destruct m; discriminate|]).
    destruct n; discriminate. }
  assert (He : exists n lo hi colour,
             nth_error Ui.steps n = Some (lo, hi, colour) /\ (lo <= aqi <= hi)%Z).
  { destruct (Z.leb_spec aqi 50); [exists 0%nat; do 3 eexists; split; [reflexivity|lia]|].
    destruct (Z.leb_spec aqi 100); [exists 1%nat; do 3 eexists; split; [reflexivity|lia]|].
    destruct (Z.leb_spec aqi 150); [exists 2%nat; do 3 eexists; split; [reflexivity|lia]|].
    destruct (Z.leb_spec aqi 200); [exists 3%nat; do 3 eexists; split; [reflexivity|lia]|].
    destruct (Z.leb_spec aqi 300); [exists 4%nat; do 3 eexists; split; [reflexivity|lia]|].
    exists 5%nat; do 3 eexists; split; [reflexivity|lia]. }
  destruct He as (n & lo & hi & colour & En & Hb).
  pose proof (step_category n lo hi colour aqi En Hb) as Ec.
  exists lo, hi. rewrite Ec. cbn [snd].
  split; [exact (nth_error_In _ _ En)|]. split; [exact Hb|].
  intros lo' hi' colour' Hin Hb'.
  destruct (In_nth_error _ _ Hin) as [m Em].
  exact (Hu m n _ _ Em En Hb' Hb).
Qed.

Lemma steps_match_ladder_witness :
  exists lo hi,
    In (lo, hi, snd (category 78)) Ui.steps
    /\ (lo <= 78 <= hi)%Z
    /\ forall lo' hi' colour',
         In (lo', hi', colour') Ui.steps -> (lo' <= 78 <= hi')%Z ->
         (lo', hi', colour') = (lo, hi, snd (category 78)).
Proof. apply (steps_match_ladder 78). lia. Defined.

(** X13: the ladder and the dict [recommendations] fit: the category of
    any integer, in range or not, is a key of the dict, so the lookup
    never raises [KeyError]; every key of the dict is the category of
    some index of [0, 500]; and no key occurs twice. *)
Theorem ladder_and_recommendations :
  (forall aqi : Z,
      exists text, Ui.dict_get Ui.recommendations (fst (category aqi)) = Some text)
  /\ (forall key : string,
         In key (map fst Ui.recommendations) ->
         exists aqi, (0 <= aqi <= 500)%Z /\ fst (category aqi) = key)
  /\ NoDup (map fst Ui.recommendations)
  /\ map fst Ui.recommendations = categories.
Proof.
  split; [exact recommendation_found|]. split; [|split; [|reflexivity]].
  - intros key Hk. simpl in Hk.
    destruct Hk as [<-|[<-|[<-|[<-|[<-|[<-|[]]]]]]];
      [exists 0%Z|exists 51%Z|exists 101%Z|exists 151%Z|exists 201%Z|exists 301%Z];
      (split; [lia|reflexivity]).
  - simpl. repeat constructor; simpl; intuition discriminate.
Qed.

(** ** Raising the readings *)

Section Raising.

Lemma supplied_In l name c bp :
  In (name, c, bp) (supplied l) <-> In (name, Some c, bp) l.
Proof.
  unfold supplied. rewrite in_flat_map. split.
  - intros ([[n o] b] & Hi & Hm). simpl in Hm.
    destruct o as [c0|]; [|destruct Hm].
    destruct Hm as [E|[]]. injection E as -> -> ->. exact Hi.
  - intros H. exists (name, Some c, bp). split; [exact H|]. simpl. now left.
Qed.

(** The sub-index of a covered concentration is not below the sub-index of
    a smaller concentration, covered or not. *)
Lemma sub_index_mono t C1 C2 :
  In t tables -> (C1 <=? C2) = true -> covered t C2 ->
  exists v1 v2,
    calculate_sub_aqi C1 t = Ok v1 /\ calculate_sub_aqi C2 t = Ok v2
    /\ (v1 <=? v2) = true.
Proof.
  intros Ht H12 Hc.
  pose proof (tables_ascending_In t Ht) as Ha.
  destruct (calculate_sub_aqi_range t C1 Ht) as (v1 & E1 & L1 & U1).
  destruct (calculate_sub_aqi_range t C2 Ht) as (v2 & E2 & L2 & U2).
  exists v1, v2. split; [exact E1|]. split; [exact E2|].
  destruct Hc as [(b2 & Hb2 & Hin2)|(last & El & Htop)].
  - unfold calculate_sub_aqi in E1.
    destruct (for_bands_cases C1 t
                (last <- index_last t ;; Ok (if high_c last <? C1 then 500 else 0)))
      as [[Hno Er]|(pre & b1 & post & Et & _ & Hin1 & _)].
    + rewrite Er in E1. destruct (tables_last t Ht) as [last El].
      rewrite El in E1. simpl in E1.
      destruct (high_c last <? C1) eqn:Htop.
      * exfalso.
        assert (Htop2 : (high_c last <? C2) = true) by (eapply ltb_leb_trans; eauto).
        pose proof (above_top_no_match C2 t last Ha El Htop2) as Hn.
        pose proof (proj1 (Forall_forall _ _) Hn b2 Hb2). congruence.
      * injection E1 as <-. exact L2.
    + assert (Hb1 : In b1 t) by (rewrite Et; apply in_or_app; right; now left).
      fold (calculate_sub_aqi C1 t) in E1.
      destruct (in_band_value t b1 C1 Ht Hb1 Hin1) as (E1' & _).
      destruct (in_band_value t b2 C2 Ht Hb2 Hin2) as (E2' & _).
      assert (v1 = interpolate C1 b1) by congruence.
      assert (v2 = interpolate C2 b2) by congruence. subst v1 v2.
      exact (proj1 (held_mono t b1 b2 C1 C2 Ht Hb1 Hb2 Hin1 Hin2 H12)).
  - rewrite (above_top_500 C2 t last Ha El Htop) in E2. injection E2 as <-. exact U1.
Qed.

Lemma raised_supplied r1 r2 r3 r4 r5 r1' r2' r3' r4' r5' name c bp :
  raised bp_pm25 r1 r1' -> raised bp_pm10 r2 r2' -> raised bp_co r3 r3' ->
  raised bp_o3 r4 r4' -> raised bp_no2 r5 r5' ->
  In (name, c, bp) (supplied (inputs r1 r2 r3 r4 r5)) ->
  exists c',
    In (name, c', bp) (supplied (inputs r1' r2' r3' r4' r5'))
    /\ In bp tables /\ (c <=? c') = true /\ covered bp c'.
Proof.
  intros H1 H2 H3 H4 H5 Hin. apply supplied_In in Hin.
  assert (Hk : forall r r', raised bp r r' -> r = Some c ->
               exists c', r' = Some c' /\ (c <=? c') = true /\ covered bp c').
  { intros r r' H ->. destruct r' as [c'|]; [|destruct H]. exists c'. tauto. }
  unfold inputs in Hin. simpl in Hin.
  destruct Hin as [E|[E|[E|[E|[E|[]]]]]]; injection E as <- E <-;
    [destruct (Hk _ _ H1 E) as (c' & -> & Hle & Hc)
    |destruct (Hk _ _ H2 E) as (c' & -> & Hle & Hc)
    |destruct (Hk _ _ H3 E) as (c' & -> & Hle & Hc)
    |destruct (Hk _ _ H4 E) as (c' & -> & Hle & Hc)
    |destruct (Hk _ _ H5 E) as (c' & -> & Hle & Hc)];
    exists c'; (split; [apply supplied_In; simpl; tauto|]);
    (split; [simpl; tauto|]); split; assumption.
Qed.

Lemma raised_nil r1 r2 r3 r4 r5 r1' r2' r3' r4' r5' :
  raised bp_pm25 r1 r1' -> raised bp_pm10 r2 r2' -> raised bp_co r3 r3' ->
  raised bp_o3 r4 r4' -> raised bp_no2 r5 r5' ->
  supplied (inputs r1 r2 r3 r4 r5) = [] ->
  supplied (inputs r1' r2' r3' r4' r5') = [].
Proof.
  intros H1 H2 H3 H4 H5 Hs.
  destruct (supplied_nil _ _ _ _ _ Hs) as (-> & -> & -> & -> & ->).
  destruct r1', r2', r3', r4', r5'; simpl in *; try contradiction; reflexivity.
Qed.

End Raising.

(** X14: raising supplied readings never lowers the overall index, as
    long as every raised reading is held by a band of its table or lies
    beyond the last band (a reading raised into a gap between two bands
    falls to the sub-index 0). *)
Theorem raised_readings_not_lower :
  forall r1 r2 r3 r4 r5 r1' r2' r3' r4' r5' : option float,
    raised bp_pm25 r1 r1' -> raised bp_pm10 r2 r2' -> raised bp_co r3 r3' ->
    raised bp_o3 r4 r4' -> raised bp_no2 r5 r5' ->
    exists a p a' p',
      get_aqi r1 r2 r3 r4 r5 = Ok (a, p)
      /\ get_aqi r1' r2' r3' r4' r5' = Ok (a', p')
      /\ (a <= a')%Z.
Proof.
  intros r1 r2 r3 r4 r5 r1' r2' r3' r4' r5' H1 H2 H3 H4 H5.
  destruct (supplied (inputs r1 r2 r3 r4 r5)) as [|i0 l] eqn:Es.
  - pose proof (raised_nil _ _ _ _ _ _ _ _ _ _ H1 H2 H3 H4 H5 Es) as Es'.
    destruct (supplied_nil _ _ _ _ _ Es) as (-> & -> & -> & -> & ->).
    destruct (supplied_nil _ _ _ _ _ Es') as (-> & -> & -> & -> & ->).
    exists 0%Z, "No data", 0%Z, "No data". repeat split. lia.
  - assert (Hs : supplied (inputs r1 r2 r3 r4 r5) <> []) by (rewrite Es; discriminate).
    assert (Hs' : supplied (inputs r1' r2' r3' r4' r5') <> []).
    { destruct i0 as [[n0 c0] bp0].
      destruct (raised_supplied _ _ _ _ _ _ _ _ _ _ n0 c0 bp0 H1 H2 H3 H4 H5)
        as (c' & Hi & _); [rewrite Es; now left|].
      intros E. rewrite E in Hi. destruct Hi. }
    clear Es.
    destruct (get_aqi_spec _ _ _ _ _ Hs)
      as (aqi_list & overall & a & p & _ & HS & HR & _ & [Hin _] & _ & Hr & Hg).
    destruct (get_aqi_spec _ _ _ _ _ Hs')
      as (aqi_list' & overall' & a' & p' & _ & HS' & HR' & _ & [Hin' Hall'] & _ & Hr' & Hg').
    exists a, p, a', p'. split; [exact Hg|]. split; [exact Hg'|].
    apply in_map_iff in Hin. destruct Hin as (o & <- & Hin).
    apply in_map_iff in Hin'. destruct Hin' as (o' & <- & Hin').
    destruct (in_range_fin _ _ HR Hin) as (Fo & _).
    destruct (in_range_fin _ _ HR' Hin') as (Fo' & _).
    apply (round_mono (snd o) (snd o')); auto.
    (* the reading behind the old maximum, raised, is behind a new sub-index *)
    destruct (Forall2_In_r _ _ _ _ HS Hin) as ([[n c] bp] & Hi & _ & Hc). simpl in Hc.
    destruct (raised_supplied _ _ _ _ _ _ _ _ _ _ n c bp H1 H2 H3 H4 H5 Hi)
      as (c' & Hi' & Ht & Hle & Hcov).
    destruct (Forall2_In_l _ _ _ _ HS' Hi') as (o2 & Ho2 & _ & Hc2). simpl in Hc2.
    destruct (sub_index_mono bp c c' Ht Hle Hcov) as (v1 & v2 & E1 & E2 & Hv).
    assert (v1 = snd o) by congruence. assert (v2 = snd o2) by congruence. subst v1 v2.
    eapply leb_trans; [exact Hv|].
    apply (proj1 (Forall_forall _ _) Hall'). now apply in_map.
Qed.

Lemma raised_readings_not_lower_witness :
  exists a p a' p',
    get_aqi (Some 25) None (Some 1) None None = Ok (a, p)
    /\ get_aqi (Some 40) None (Some 60) None None = Ok (a', p')
    /\ (a <= a')%Z.
Proof.
  apply (raised_readings_not_lower (Some 25) None (Some 1) None None
           (Some 40) None (Some 60) None None); simpl; auto.
  - split; [reflexivity|]. left. exists (35.5, 55.4, 101, 150).
    split; [simpl; tauto|reflexivity].
  - split; [reflexivity|]. right. exists (30.5, 50.4, 301, 500).
    split; reflexivity.
Defined.
